(** * A shallow embedding of the asleepace/sql query builder (src/index.ts)

    The development follows the source file section by section: the
    query AST, the fluent [QueryBuilder] (whose ASTs live in an object
    store, because [with] shares them by reference), the condition
    factory, and the [SQLCompiler], whose two instance fields [params]
    and [paramIndex] are threaded explicitly. *)

From Stdlib Require Import ZArith Ascii String List Lia.
From Stdlib Require Import DecimalString DecimalNat DecimalZ.
From stdpp Require Import base option list gmap.

Set Warnings "-register-all".
Open Scope string_scope.

(* ====================================================================== *)
(** * JavaScript values and text *)
(* ====================================================================== *)

(** The values that can occur in [WhereNode.value] (TypeScript [any]).
    Numbers are integers here: bound values are collected, never
    rendered into the SQL text, so how they print plays no part. *)
Inductive Value : Type :=
  | VUndefined
  | VNull
  | VBool (b : bool)
  | VNum (z : Z)
  | VStr (s : string)
  | VArr (elems : list Value).

(** Errors a call can throw. [Error msg] is [new Error(msg)];
    [TypeError] is what calling [.map] on a non-array raises. *)
Inductive JsError : Type :=
  | Error (message : string)
  | TypeError.

Inductive outcome (A : Type) : Type :=
  | Ok (a : A)
  | Throw (e : JsError).
Arguments Ok {A} a.
Arguments Throw {A} e.

(** A method call over mutable state [S]: it returns or throws, and
    leaves the state as it was at that moment. *)
Definition Eff (S A : Type) : Type := S -> outcome A * S.

Definition ret {S A} (a : A) : Eff S A := fun st => (Ok a, st).

Definition bind {S A B} (m : Eff S A) (k : A -> Eff S B) : Eff S B :=
  fun st =>
    match m st with
    | (Ok a, st') => k a st'
    | (Throw e, st') => (Throw e, st')
    end.

Definition throw {S A} (e : JsError) : Eff S A := fun st => (Throw e, st).

(** [`${n}`] for a non-negative integer counter. *)
Definition string_of_nat (n : nat) : string :=
  NilEmpty.string_of_uint (Nat.to_uint n).

(** The numbers handed to [limit] and [offset]. The model holds the
    integers a JavaScript number stores exactly, those of magnitude at
    most [Number.MAX_SAFE_INTEGER]; numbers with a fraction, [NaN], the
    infinities and larger magnitudes (printed in exponent form from
    1e21 on) are outside it. *)
Definition MAX_SAFE_INTEGER : Z := 9007199254740991.

Definition isSafeInteger (z : Z) : bool := (Z.abs z <=? MAX_SAFE_INTEGER)%Z.

Record SafeInteger : Type := mkSafeInteger {
  int_value : Z;
  int_safe : isSafeInteger int_value = true
}.

(** A literal safe integer. *)
Abbreviation Int z := (mkSafeInteger z%Z eq_refl) (only parsing).

(** [`${n}`] for a safe integer: its decimal digits, after a minus sign
    if it is negative. *)
Definition Number_toString (n : SafeInteger) : string :=
  NilEmpty.string_of_int (Z.to_int (int_value n)).

(** [`${x}`] for an optional string field: [undefined] prints as such. *)
Definition template (x : option string) : string :=
  match x with
  | Some s => s
  | None => "undefined"
  end.

(** [Array.prototype.join] on an array of strings. *)
Definition Array_join (sep : string) (parts : list string) : string :=
  String.concat sep parts.

(* ====================================================================== *)
(** * Schema definition and query AST *)
(* ====================================================================== *)

Inductive Operator : Type :=
  | OpEq | OpNe | OpGt | OpLt | OpGe | OpLe
  | OpLike | OpIn | OpIsNull | OpIsNotNull.

Definition Operator_text (o : Operator) : string :=
  match o with
  | OpEq => "="
  | OpNe => "!="
  | OpGt => ">"
  | OpLt => "<"
  | OpGe => ">="
  | OpLe => "<="
  | OpLike => "LIKE"
  | OpIn => "IN"
  | OpIsNull => "IS NULL"
  | OpIsNotNull => "IS NOT NULL"
  end.

Inductive RelationType : Type := OneToOne | OneToMany | ManyToMany.

Record Relation : Type := mkRelation {
  from : string;
  to : string;
  rel_type : RelationType;
  foreignKey : string;
  references : string
}.

Inductive WhereNodeType : Type := T_condition | T_AND | T_OR | T_NOT.

(** [interface WhereNode]: one record shape for all four tags, every
    field but the tag optional. An absent [value] reads as [VUndefined]. *)
Inductive WhereNode : Type := mkWhereNode {
  node_type : WhereNodeType;
  node_field : option string;
  node_op : option Operator;
  node_value : Value;
  node_children : option (list WhereNode)
}.

Inductive JoinType : Type := INNER | LEFT | RIGHT | FULL.

Definition JoinType_text (t : JoinType) : string :=
  match t with
  | INNER => "INNER"
  | LEFT => "LEFT"
  | RIGHT => "RIGHT"
  | FULL => "FULL"
  end.

Record JoinOn : Type := mkJoinOn { left : string; right : string }.

Record JoinNode : Type := mkJoinNode {
  join_type : JoinType;
  join_table : string;
  on : JoinOn;
  alias : option string
}.

Inductive Direction : Type := ASC | DESC.

Definition Direction_text (d : Direction) : string :=
  match d with ASC => "ASC" | DESC => "DESC" end.

Record OrderByNode : Type := mkOrderByNode {
  column : string;
  direction : Direction
}.

Inductive StatementType : Type := SELECT | INSERT | UPDATE | DELETE.

(** [interface CTENode], over the type [Q] of what [query] holds. *)
Record CTENode (Q : Type) : Type := mkCTENode {
  name : string;
  query : Q
}.
Arguments mkCTENode {Q} name query.
Arguments name {Q} c.
Arguments query {Q} c.

(** [interface QueryAST], over the type [Q] of a nested query: the
    compiler reads a whole tree ([Q] is the AST itself), the builder
    holds object references ([Q] is an address in the store). *)
Record QueryNode (Q : Type) : Type := mkQueryNode {
  type : StatementType;
  table : string;
  columns : option (list string);
  where_ : option (list WhereNode);
  joins : option (list JoinNode);
  orderBy : option (list OrderByNode);
  groupBy : option (list string);
  having : option (list WhereNode);
  limit : option SafeInteger;
  offset : option SafeInteger;
  with_ : option (list (CTENode Q))
}.
Arguments mkQueryNode {Q}.
Arguments type {Q} q.
Arguments table {Q} q.
Arguments columns {Q} q.
Arguments where_ {Q} q.
Arguments joins {Q} q.
Arguments orderBy {Q} q.
Arguments groupBy {Q} q.
Arguments having {Q} q.
Arguments limit {Q} q.
Arguments offset {Q} q.
Arguments with_ {Q} q.

Inductive QueryAST : Type :=
  | Query (node : QueryNode QueryAST).

(** The record of an AST. *)
Definition node_of (ast : QueryAST) : QueryNode QueryAST :=
  match ast with Query n => n end.

(* ====================================================================== *)
(** * Condition builders *)
(* ====================================================================== *)

Module Conditions.

Definition leaf (field : string) (op : Operator) (value : Value) : WhereNode :=
  mkWhereNode T_condition (Some field) (Some op) value None.

Definition eq (field : string) (value : Value) := leaf field OpEq value.
Definition ne (field : string) (value : Value) := leaf field OpNe value.
Definition gt (field : string) (value : Value) := leaf field OpGt value.
Definition lt (field : string) (value : Value) := leaf field OpLt value.
Definition gte (field : string) (value : Value) := leaf field OpGe value.
Definition lte (field : string) (value : Value) := leaf field OpLe value.
Definition like (field : string) (pattern : string) := leaf field OpLike (VStr pattern).
Definition in_ (field : string) (values : list Value) := leaf field OpIn (VArr values).
Definition isNull (field : string) := leaf field OpIsNull VUndefined.
Definition isNotNull (field : string) := leaf field OpIsNotNull VUndefined.

Definition and (conditions : list WhereNode) : WhereNode :=
  mkWhereNode T_AND None None VUndefined (Some conditions).
Definition or (conditions : list WhereNode) : WhereNode :=
  mkWhereNode T_OR None None VUndefined (Some conditions).
Definition not (condition : WhereNode) : WhereNode :=
  mkWhereNode T_NOT None None VUndefined (Some [condition]).

End Conditions.

(* ====================================================================== *)
(** * SQL compiler *)
(* ====================================================================== *)

(** The two private fields of [class SQLCompiler]. *)
Record CompilerState : Type := mkState {
  params : list Value;
  paramIndex : nat
}.

(** A method of the compiler: it reads and writes the instance fields
    and either returns or throws. *)
Abbreviation M := (Eff CompilerState).

Notation "'let*' x ':=' m 'in' k" := (bind m (fun x => k))
  (at level 10, x name, m at level 100, k at level 200).

(** [xs.map(f)] where the callback runs in the compiler: left to right,
    each call seeing the fields as the previous call left them. *)
Definition Array_map {A B} (f : A -> M B) : list A -> M (list B) :=
  fix go (xs : list A) : M (list B) :=
    match xs with
    | [] => ret []
    | x :: xs' =>
        let* y := f x in
        let* ys := go xs' in
        ret (y :: ys)
    end.

(** [this.params.push(val); return `$${this.paramIndex++}`] *)
Definition placeholder (val : Value) : M string :=
  fun st =>
    (Ok ("$" ++ string_of_nat (paramIndex st)),
     mkState (params st ++ [val]) (S (paramIndex st))).

(** [private compileWhereNode(node)]. The [switch] is over the four
    tags of the declared type, so its [default] branch has no case
    here. A field that is [undefined] prints as such in a template
    literal; [node.children?.map(...)] on absent children is
    [undefined] as a whole, and calling [.map] on a value that is not
    an array throws. *)
Fixpoint compileWhereNode (node : WhereNode) : M string :=
  match node_type node with
  | T_condition =>
      match node_op node with
      | Some OpIsNull | Some OpIsNotNull =>
          ret (template (node_field node) ++ " " ++ template (Operator_text <$> node_op node))
      | Some OpIn =>
          match node_value node with
          | VArr vals =>
              let* placeholders := Array_map placeholder vals in
              ret (template (node_field node) ++ " IN (" ++ Array_join ", " placeholders ++ ")")
          | _ => throw TypeError
          end
      | _ =>
          let* p := placeholder (node_value node) in
          ret (template (node_field node) ++ " "
               ++ template (Operator_text <$> node_op node) ++ " " ++ p)
      end
  | T_AND =>
      match node_children node with
      | Some children =>
          let* parts := Array_map compileWhereNode children in
          ret ("(" ++ Array_join " AND " parts ++ ")")
      | None => ret "(undefined)"
      end
  | T_OR =>
      match node_children node with
      | Some children =>
          let* parts := Array_map compileWhereNode children in
          ret ("(" ++ Array_join " OR " parts ++ ")")
      | None => ret "(undefined)"
      end
  | T_NOT =>
      match node_children node with
      | Some children =>
          let* parts := Array_map compileWhereNode children in
          ret ("NOT (" ++ Array_join " " parts ++ ")")
      | None => ret "NOT (undefined)"
      end
  end.

(** [private compileWhereNodes(nodes)] *)
Definition compileWhereNodes (nodes : list WhereNode) : M string :=
  match nodes with
  | [] => ret ""
  | _ =>
      let* parts := Array_map compileWhereNode nodes in
      ret (Array_join " AND " parts)
  end.

(** What [compile] returns: [{ sql, params: this.params }]. *)
Record CompileResult : Type := mkResult {
  sql : string;
  result_params : list Value
}.

(** [this.params = []; this.paramIndex = 1] *)
Definition reset : M unit := fun _ => (Ok tt, mkState [] 1).

(** The two appends of the loop body. *)
Definition compileJoin (acc : string) (j : JoinNode) : string :=
  acc ++ " " ++ JoinType_text (join_type j) ++ " JOIN " ++ join_table j
      ++ " ON " ++ left (on j) ++ " = " ++ right (on j).

(** [ast.joins.forEach(join => { sql += ...; sql += ... })] *)
Definition compileJoins (acc : string) (js : list JoinNode) : string :=
  fold_left compileJoin js acc.

(** [ast.columns?.join(', ') || '*']: an absent list and an empty
    joined text both fall through to the star. *)
Definition compileColumns (cols : option (list string)) : string :=
  match cols with
  | None => "*"
  | Some cs => let text := Array_join ", " cs in if String.eqb text "" then "*" else text
  end.

(** [`${o.column} ${o.direction}`] *)
Definition compileOrderBy (o : OrderByNode) : string :=
  column o ++ " " ++ Direction_text (direction o).

(** [if (xs && xs.length > 0)] *)
Definition nonEmpty {A} (xs : option (list A)) : option (list A) :=
  match xs with
  | Some (_ :: _) => xs
  | _ => None
  end.

(** [compile(ast)]: the reset, then the clauses in the order of the
    source, [sql] growing by appending. The call for a sub-query is a
    call of this same method on the same compiler object. *)
Fixpoint compile (ast : QueryAST) : M CompileResult :=
  match ast with
  | Query q =>
      let* _ := reset in
      let sql := "" in
      (* WITH (CTEs) *)
      let* sql :=
        match with_ q with
        | Some ((_ :: _) as ctes_in) =>
            let* ctes :=
              Array_map (fun cte =>
                      let* r := compile (query cte) in
                      match r with
                      | mkResult cteSql _ => ret (name cte ++ " AS (" ++ cteSql ++ ")")
                      end) ctes_in in
            ret (sql ++ "WITH " ++ Array_join ", " ctes ++ " ")
        | _ => ret sql
        end in
      (* SELECT *)
      let sql := sql ++ "SELECT " in
      let sql := sql ++ compileColumns (columns q) in
      let sql := sql ++ " FROM " ++ table q in
      (* JOINS *)
      let sql :=
        match nonEmpty (joins q) with
        | Some js => compileJoins sql js
        | None => sql
        end in
      (* WHERE *)
      let* sql :=
        match nonEmpty (where_ q) with
        | Some nodes =>
            let sql := sql ++ " WHERE " in
            let* w := compileWhereNodes nodes in
            ret (sql ++ w)
        | None => ret sql
        end in
      (* GROUP BY *)
      let sql :=
        match nonEmpty (groupBy q) with
        | Some gs => sql ++ " GROUP BY " ++ Array_join ", " gs
        | None => sql
        end in
      (* HAVING *)
      let* sql :=
        match nonEmpty (having q) with
        | Some nodes =>
            let sql := sql ++ " HAVING " in
            let* h := compileWhereNodes nodes in
            ret (sql ++ h)
        | None => ret sql
        end in
      (* ORDER BY *)
      let sql :=
        match nonEmpty (orderBy q) with
        | Some os => sql ++ " ORDER BY " ++ Array_join ", " (map compileOrderBy os)
        | None => sql
        end in
      (* LIMIT/OFFSET *)
      let sql :=
        match limit q with
        | Some n => sql ++ " LIMIT " ++ Number_toString n
        | None => sql
        end in
      let sql :=
        match offset q with
        | Some n => sql ++ " OFFSET " ++ Number_toString n
        | None => sql
        end in
      fun st => (Ok (mkResult sql (params st)), st)
  end.

(** A freshly constructed [SQLCompiler]. *)
Definition new_SQLCompiler : CompilerState := mkState [] 1.

(* ====================================================================== *)
(** * Query builder *)
(* ====================================================================== *)

(** Query models are JavaScript objects: a builder holds a reference to
    its own, and [with] stores the reference of another builder's. The
    store maps addresses to objects whose nested queries are addresses.
    Arrays inside one object are never shared between objects by the
    builder, so they are kept as values in the object. *)
Abbreviation addr := nat (only parsing).
Abbreviation Store := (gmap nat (QueryNode nat)).

Section FieldUpdates.
Context {Q : Type}.

Definition set_columns (v : option (list string)) (q : QueryNode Q) : QueryNode Q :=
  mkQueryNode (type q) (table q) v (where_ q) (joins q) (orderBy q)
              (groupBy q) (having q) (limit q) (offset q) (with_ q).

Definition set_where (v : option (list WhereNode)) (q : QueryNode Q) : QueryNode Q :=
  mkQueryNode (type q) (table q) (columns q) v (joins q) (orderBy q)
              (groupBy q) (having q) (limit q) (offset q) (with_ q).

Definition set_joins (v : option (list JoinNode)) (q : QueryNode Q) : QueryNode Q :=
  mkQueryNode (type q) (table q) (columns q) (where_ q) v (orderBy q)
              (groupBy q) (having q) (limit q) (offset q) (with_ q).

Definition set_orderBy (v : option (list OrderByNode)) (q : QueryNode Q) : QueryNode Q :=
  mkQueryNode (type q) (table q) (columns q) (where_ q) (joins q) v
              (groupBy q) (having q) (limit q) (offset q) (with_ q).

Definition set_groupBy (v : option (list string)) (q : QueryNode Q) : QueryNode Q :=
  mkQueryNode (type q) (table q) (columns q) (where_ q) (joins q) (orderBy q)
              v (having q) (limit q) (offset q) (with_ q).

Definition set_limit (v : option SafeInteger) (q : QueryNode Q) : QueryNode Q :=
  mkQueryNode (type q) (table q) (columns q) (where_ q) (joins q) (orderBy q)
              (groupBy q) (having q) v (offset q) (with_ q).

Definition set_offset (v : option SafeInteger) (q : QueryNode Q) : QueryNode Q :=
  mkQueryNode (type q) (table q) (columns q) (where_ q) (joins q) (orderBy q)
              (groupBy q) (having q) (limit q) v (with_ q).

Definition set_with (v : option (list (CTENode Q))) (q : QueryNode Q) : QueryNode Q :=
  mkQueryNode (type q) (table q) (columns q) (where_ q) (joins q) (orderBy q)
              (groupBy q) (having q) (limit q) (offset q) v.
End FieldUpdates.

(** The AST the constructor of [QueryBuilder] creates. *)
Definition emptyQuery {Q} (tbl : string) : QueryNode Q :=
  mkQueryNode SELECT tbl (Some []) (Some []) (Some []) (Some [])
              None None None None None.

(** The object graph below an address, read as the tree the compiler
    walks. [fuel] bounds the nesting depth followed; a graph with a
    cycle has no finite reading. *)
Fixpoint reify (fuel : nat) (h : Store) (a : addr) : option QueryAST :=
  match fuel with
  | O => None
  | S fuel' =>
      o ← h !! a;
      ctes ← match with_ o with
             | None => Some None
             | Some cs =>
                 Some <$> mapM (fun c => q ← reify fuel' h (query c);
                                         Some (mkCTENode (name c) q)) cs
             end;
      Some (Query (mkQueryNode (type o) (table o) (columns o) (where_ o) (joins o)
                               (orderBy o) (groupBy o) (having o) (limit o)
                               (offset o) ctes))
  end.

(** [r.from === cur && r.to === table || r.to === cur && r.from === table] *)
Definition relates (cur tbl : string) (r : Relation) : bool :=
  (String.eqb (from r) cur && String.eqb (to r) tbl)
  || (String.eqb (to r) cur && String.eqb (from r) tbl).

Module QueryBuilder.

(** The [schema] field is stored by the constructor and read by no
    method; it is left out. *)
Record t : Type := mk {
  ast : addr;
  relations : list Relation
}.

Abbreviation B := (Eff Store).

(** [constructor(schema, relations, table)]: a new object for the AST. *)
Definition new (rels : list Relation) (tbl : string) : B t :=
  fun h =>
    let a := fresh (dom h) in
    (Ok (mk a rels), <[a := emptyQuery tbl]> h).

(** An assignment to, or an in-place update of, a field of [this.ast],
    followed by [return this]. *)
Definition update (f : QueryNode addr -> QueryNode addr) (this : t) : B t :=
  fun h => (Ok this, alter f (ast this) h).

(** [this.ast.columns = columns] *)
Definition select (cols : list string) : t -> B t :=
  update (set_columns (Some cols)).

(** [this.ast.where = [...(this.ast.where || []), ...conditions]] *)
Definition where_ (conditions : list WhereNode) : t -> B t :=
  update (fun o => set_where (Some (default [] (where_ o) ++ conditions)%list) o).

(** [join(table, type)]: look the relation up, throw if there is none,
    otherwise [this.ast.joins?.push(...)]. The store is handed back as
    it is at the moment of the throw. (A builder whose model is not in
    the store cannot arise from the constructor; reading its table
    would be a [TypeError].) *)
Definition join (tbl : string) (kind : JoinType) (this : t) : B t :=
  fun h =>
    match h !! ast this with
    | None => (Throw TypeError, h)
    | Some o =>
        match List.find (relates (table o) tbl) (relations this) with
        | None =>
            (Throw (Error ("No relation defined between " ++ table o ++ " and " ++ tbl)), h)
        | Some relation =>
            let clause :=
              mkJoinNode kind tbl
                (mkJoinOn (table o ++ "." ++ foreignKey relation)
                          (tbl ++ "." ++ references relation)) None in
            (Ok this,
             <[ast this := set_joins ((fun js => (js ++ [clause])%list) <$> joins o) o]> h)
        end
    end.

(** [this.ast.orderBy?.push({ column, direction })] *)
Definition orderBy (col : string) (dir : Direction) : t -> B t :=
  update (fun o => set_orderBy ((fun os => (os ++ [mkOrderByNode col dir])%list) <$> orderBy o) o).

(** [this.ast.groupBy = columns] *)
Definition groupBy (cols : list string) : t -> B t :=
  update (set_groupBy (Some cols)).

(** [this.ast.limit = limit] *)
Definition limit (n : SafeInteger) : t -> B t := update (set_limit (Some n)).

(** [this.ast.offset = offset] *)
Definition offset (n : SafeInteger) : t -> B t := update (set_offset (Some n)).

(** [this.ast.with = this.ast.with || [];
     this.ast.with.push({ name, query: subquery.ast })]:
    what is pushed is the sub-builder's own AST object. *)
Definition with_ (nm : string) (subquery : t) : t -> B t :=
  update (fun o => set_with (Some (default [] (with_ o) ++ [mkCTENode nm (ast subquery)])%list) o).

(** [new SQLCompiler().compile(this.ast)]; [None] when the object
    graph is nested deeper than [fuel]. *)
Definition toSQL (fuel : nat) (this : t) (h : Store) : option (outcome CompileResult) :=
  tree ← reify fuel h (ast this);
  Some (fst (compile tree new_SQLCompiler)).

(** [return this.ast] *)
Definition getAST (this : t) : addr := ast this.

End QueryBuilder.

(** The placeholders an [IN] list of [k] values receives from index [i]. *)
Definition dollars (i k : nat) : list string :=
  map (fun n => "$" ++ string_of_nat n) (seq i k).

(** [or(eq(status,'active'), and(eq(status,'pending'), gt(age,18)))] *)
Definition spec_example : WhereNode :=
  Conditions.or
    [ Conditions.eq "status" (VStr "active");
      Conditions.and [ Conditions.eq "status" (VStr "pending");
                       Conditions.gt "age" (VNum 18) ] ].

(** A statement with two WHERE and two HAVING predicates. *)
Definition where_having_example : QueryAST :=
  Query (mkQueryNode SELECT "users" (Some [])
           (Some [Conditions.eq "a" (VNum 1); Conditions.eq "b" (VNum 2)])
           (Some []) (Some []) (Some ["a"])
           (Some [Conditions.gt "c" (VNum 3); Conditions.lt "d" (VNum 4)])
           None None None).

(* ====================================================================== *)
(** * Induction over predicate trees, and when compilation returns *)
(* ====================================================================== *)

Section WhereNode_induction.
Variable P : WhereNode -> Prop.
Hypothesis step :
  forall ty f o v ch, Forall P (default [] ch) -> P (mkWhereNode ty f o v ch).

Fixpoint WhereNode_tree_ind (n : WhereNode) : P n :=
  match n with
  | mkWhereNode ty f o v ch =>
      step ty f o v ch
        (match ch return Forall P (default [] ch) with
         | Some cs =>
             (fix all (l : list WhereNode) : Forall P l :=
                match l with
                | [] => List.Forall_nil P
                | c :: l' => List.Forall_cons P c l' (WhereNode_tree_ind c) (all l')
                end) cs
         | None => List.Forall_nil P
         end)
  end.
End WhereNode_induction.

(** The only way [compileWhereNode] can throw: an [IN] condition whose
    value has no [map] method, that is, is not an array. The factory's
    [in] always passes an array. *)
Fixpoint in_values_are_arrays (node : WhereNode) : bool :=
  match node_type node with
  | T_condition =>
      match node_op node, node_value node with
      | Some OpIn, VArr _ => true
      | Some OpIn, _ => false
      | _, _ => true
      end
  | _ =>
      match node_children node with
      | Some cs => forallb in_values_are_arrays cs
      | None => true
      end
  end.

Definition returns {A} (m : M A) : Prop :=
  forall st, exists a st', m st = (Ok a, st').

(* ====================================================================== *)
(** * Placeholders in the emitted text, and the values bound to them *)
(* ====================================================================== *)

(** Reading the specification's [$N] back out of SQL text: a dollar sign
    followed by a maximal run of decimal digits. These follow the
    specification's wording, not a function of the source. *)
Definition is_digit (c : ascii) : bool :=
  (48 <=? nat_of_ascii c)%nat && (nat_of_ascii c <=? 57)%nat.

Definition digit_value (c : ascii) : nat := nat_of_ascii c - 48.

Fixpoint leading_number (s : string) (acc : option nat) : option nat :=
  match s with
  | String c rest =>
      if is_digit c
      then leading_number rest (Some (10 * default 0 acc + digit_value c))
      else acc
  | EmptyString => acc
  end.

Fixpoint placeholders (s : string) : list nat :=
  match s with
  | EmptyString => []
  | String c rest =>
      if Ascii.eqb c "$"
      then match leading_number rest None with
           | Some n => n :: placeholders rest
           | None => placeholders rest
           end
      else placeholders rest
  end.

Fixpoint dollar_free (s : string) : bool :=
  match s with
  | EmptyString => true
  | String c rest => negb (Ascii.eqb c "$") && dollar_free rest
  end.

Definition starts_without_digit (s : string) : bool :=
  match s with
  | String c _ => negb (is_digit c)
  | EmptyString => true
  end.

(** Field names of a predicate tree that contain no dollar sign (column
    names reach the compiler already validated). Only the fields the
    compiler prints are looked at. *)
Fixpoint dollar_free_fields (node : WhereNode) : bool :=
  match node_type node with
  | T_condition => dollar_free (template (node_field node))
  | _ =>
      match node_children node with
      | Some cs => forallb dollar_free_fields cs
      | None => true
      end
  end.

(** The compiler's output with each placeholder kept apart from the
    literal text around it, and labelled with the value that was pushed
    when it was emitted. *)
Inductive Piece : Type :=
  | Text (s : string)
  | Hole (ordinal : nat) (bound : Value).

Definition render_piece (p : Piece) : string :=
  match p with
  | Text s => s
  | Hole n _ => "$" ++ string_of_nat n
  end.

Definition render (tr : list Piece) : string :=
  fold_right (fun p acc => render_piece p ++ acc) "" tr.

Definition holes (tr : list Piece) : list (nat * Value) :=
  flat_map (fun p => match p with
                     | Text _ => []
                     | Hole n v => [(n, v)]
                     end) tr.

(** [parts.join(sep)] on labelled output. *)
Fixpoint Trace_join (sep : string) (parts : list (list Piece)) : list Piece :=
  match parts with
  | [] => []
  | [p] => p
  | p :: rest => (p ++ Text sep :: Trace_join sep rest)%list
  end.

(** [placeholder], labelled. *)
Definition placeholderT (val : Value) : M (list Piece) :=
  fun st =>
    (Ok [Hole (paramIndex st) val],
     mkState (params st ++ [val]) (S (paramIndex st))).

(** [compileWhereNode], labelled: the same statements in the same
    order, returning pieces instead of their concatenation. *)
Fixpoint traceWhereNode (node : WhereNode) : M (list Piece) :=
  match node_type node with
  | T_condition =>
      match node_op node with
      | Some OpIsNull | Some OpIsNotNull =>
          ret [Text (template (node_field node) ++ " "
                     ++ template (Operator_text <$> node_op node))]
      | Some OpIn =>
          match node_value node with
          | VArr vals =>
              let* placeholders := Array_map placeholderT vals in
              ret (Text (template (node_field node) ++ " IN (")
                   :: Trace_join ", " placeholders ++ [Text ")"])%list
          | _ => throw TypeError
          end
      | _ =>
          let* p := placeholderT (node_value node) in
          ret (Text (template (node_field node) ++ " "
                     ++ template (Operator_text <$> node_op node) ++ " ") :: p)
      end
  | T_AND =>
      match node_children node with
      | Some children =>
          let* parts := Array_map traceWhereNode children in
          ret (Text "(" :: Trace_join " AND " parts ++ [Text ")"])%list
      | None => ret [Text "(undefined)"]
      end
  | T_OR =>
      match node_children node with
      | Some children =>
          let* parts := Array_map traceWhereNode children in
          ret (Text "(" :: Trace_join " OR " parts ++ [Text ")"])%list
      | None => ret [Text "(undefined)"]
      end
  | T_NOT =>
      match node_children node with
      | Some children =>
          let* parts := Array_map traceWhereNode children in
          ret (Text "NOT (" :: Trace_join " " parts ++ [Text ")"])%list
      | None => ret [Text "NOT (undefined)"]
      end
  end.

(** The compiler fields between [reset] and the end of one [compile]:
    the next placeholder number is one more than the values collected. *)
Definition counter_in_step (st : CompilerState) : Prop :=
  paramIndex st = S (length (params st)).


(** Forgetting the labels of a labelled method. *)
Definition rendered {A} (show : A -> string) (m : M A) : M string :=
  let* a := m in ret (show a).

(** One [xs.map(f)] that returned, as the chain of callback runs. *)
Inductive runs_through {A B} (f : A -> M B) :
    list A -> CompilerState -> list B -> CompilerState -> Prop :=
  | runs_nil st : runs_through f [] st [] st
  | runs_cons x xs st y st1 ys st2 :
      f x st = (Ok y, st1) ->
      runs_through f xs st1 ys st2 ->
      runs_through f (x :: xs) st (y :: ys) st2.

(** What a run that emitted the labelled placeholders [hs] did to the
    compiler fields: it pushed exactly their values, in order, and
    numbered them consecutively from the counter it started with. *)
Definition accounts (st : CompilerState) (hs : list (nat * Value))
    (st' : CompilerState) : Prop :=
  params st' = (params st ++ map snd hs)%list
  /\ map fst hs = seq (paramIndex st) (length hs)
  /\ paramIndex st' = paramIndex st + length hs.

(** Text in which every placeholder reads back as labelled, whatever
    non-digit text follows. *)
Definition scans (tr : list Piece) : Prop :=
  forall k, starts_without_digit k = true ->
    placeholders (render tr ++ k) = (map fst (holes tr) ++ placeholders k)%list.

Definition separator (sep : string) : bool :=
  dollar_free sep && starts_without_digit sep && negb (String.eqb sep "").


(* ====================================================================== *)
(** * The stages of [compile], one by one *)
(* ====================================================================== *)

(** The statements of [compile] between its reset and its return, cut
    at the section comments of the source. [compile_stages] below shows
    that [compile] is their composition. *)
Definition compileCTE (cte : CTENode QueryAST) : M string :=
  let* r := compile (query cte) in
  match r with
  | mkResult cteSql _ => ret (name cte ++ " AS (" ++ cteSql ++ ")")
  end.

Definition stageWith (q : QueryNode QueryAST) (sql : string) : M string :=
  match with_ q with
  | Some ((_ :: _) as ctes_in) =>
      let* ctes := Array_map compileCTE ctes_in in
      ret (sql ++ "WITH " ++ Array_join ", " ctes ++ " ")
  | _ => ret sql
  end.

Definition stageSelect {Q} (q : QueryNode Q) (sql : string) : string :=
  let sql := sql ++ "SELECT " in
  let sql := sql ++ compileColumns (columns q) in
  sql ++ " FROM " ++ table q.

Definition stageJoins {Q} (q : QueryNode Q) (sql : string) : string :=
  match nonEmpty (joins q) with
  | Some js => compileJoins sql js
  | None => sql
  end.

Definition stageWhere {Q} (q : QueryNode Q) (sql : string) : M string :=
  match nonEmpty (where_ q) with
  | Some nodes =>
      let sql := sql ++ " WHERE " in
      let* w := compileWhereNodes nodes in
      ret (sql ++ w)
  | None => ret sql
  end.

Definition stageGroupBy {Q} (q : QueryNode Q) (sql : string) : string :=
  match nonEmpty (groupBy q) with
  | Some gs => sql ++ " GROUP BY " ++ Array_join ", " gs
  | None => sql
  end.

Definition stageHaving {Q} (q : QueryNode Q) (sql : string) : M string :=
  match nonEmpty (having q) with
  | Some nodes =>
      let sql := sql ++ " HAVING " in
      let* h := compileWhereNodes nodes in
      ret (sql ++ h)
  | None => ret sql
  end.

Definition stageOrderBy {Q} (q : QueryNode Q) (sql : string) : string :=
  match nonEmpty (orderBy q) with
  | Some os => sql ++ " ORDER BY " ++ Array_join ", " (map compileOrderBy os)
  | None => sql
  end.

Definition stageLimit {Q} (q : QueryNode Q) (sql : string) : string :=
  match limit q with
  | Some n => sql ++ " LIMIT " ++ Number_toString n
  | None => sql
  end.

Definition stageOffset {Q} (q : QueryNode Q) (sql : string) : string :=
  match offset q with
  | Some n => sql ++ " OFFSET " ++ Number_toString n
  | None => sql
  end.

Definition stageReturn (sql : string) : M CompileResult :=
  fun st => (Ok (mkResult sql (params st)), st).

(** Everything after the WITH stage. *)
Definition compileBody (q : QueryNode QueryAST) (sql : string) : M CompileResult :=
  let sql := stageJoins q (stageSelect q sql) in
  let* sql := stageWhere q sql in
  let sql := stageGroupBy q sql in
  let* sql := stageHaving q sql in
  stageReturn (stageOffset q (stageLimit q (stageOrderBy q sql))).

(** The text [compile] puts before [SELECT]. *)
Definition withClause (ctes : list string) : string :=
  match ctes with
  | [] => ""
  | _ => "WITH " ++ Array_join ", " ctes ++ " "
  end.

Section QueryAST_induction.
Variable P : QueryAST -> Prop.
Hypothesis step :
  forall q, Forall (fun c => P (query c)) (default [] (with_ q)) -> P (Query q).

Fixpoint QueryAST_tree_ind (ast : QueryAST) : P ast :=
  match ast with
  | Query q =>
      step q
        (match with_ q as w return Forall (fun c => P (query c)) (default [] w) with
         | Some cs =>
             (fix all (l : list (CTENode QueryAST)) : Forall (fun c => P (query c)) l :=
                match l with
                | [] => List.Forall_nil _
                | c :: l' =>
                    List.Forall_cons _ c l' (QueryAST_tree_ind (query c)) (all l')
                end) cs
         | None => List.Forall_nil _
         end)
  end.
End QueryAST_induction.

(** No [IN] condition without an array anywhere in the statement, its
    sub-queries included: then [compile] cannot throw. *)
Fixpoint query_in_values_are_arrays (ast : QueryAST) : bool :=
  match ast with
  | Query q =>
      forallb in_values_are_arrays (default [] (where_ q))
      && forallb in_values_are_arrays (default [] (having q))
      && match with_ q with
         | Some cs => forallb (fun c => query_in_values_are_arrays (query c)) cs
         | None => true
         end
  end.


(* ====================================================================== *)
(** * Example schemas and queries *)
(* ====================================================================== *)

(** The relations of the repository's test suite. *)
Definition test_relations : list Relation :=
  [ mkRelation "posts" "users" OneToMany "author_id" "id";
    mkRelation "comments" "posts" OneToMany "post_id" "id";
    mkRelation "comments" "users" OneToMany "user_id" "id" ].

(** The text one join clause contributes to the statement. *)
Definition joinText (j : JoinNode) : string :=
  " " ++ JoinType_text (join_type j) ++ " JOIN " ++ join_table j
      ++ " ON " ++ left (on j) ++ " = " ++ right (on j).

(** Two sibling sub-queries, each with one bound value, under an outer
    statement with two more: built through the builder API. *)
Definition two_ctes_program : Eff Store QueryBuilder.t :=
  let* a := QueryBuilder.new test_relations "users" in
  let* a := QueryBuilder.where_ [Conditions.eq "status" (VStr "active")] a in
  let* b := QueryBuilder.new test_relations "posts" in
  let* b := QueryBuilder.where_ [Conditions.eq "published" (VBool true)] b in
  let* c := QueryBuilder.new test_relations "comments" in
  let* c := QueryBuilder.with_ "a" a c in
  let* c := QueryBuilder.with_ "b" b c in
  QueryBuilder.where_ [Conditions.in_ "id" [VNum 1; VNum 2]] c.

(** The same statement as a tree. *)
Definition two_ctes_example : QueryAST :=
  Query
    (set_with
       (Some [ mkCTENode "a"
                 (Query (set_where (Some [Conditions.eq "status" (VStr "active")])
                                   (emptyQuery "users")));
               mkCTENode "b"
                 (Query (set_where (Some [Conditions.eq "published" (VBool true)])
                                   (emptyQuery "posts"))) ])
       (set_where (Some [Conditions.in_ "id" [VNum 1; VNum 2]])
                  (emptyQuery "comments"))).

(** The sub-query example of the specification and of the README. *)
Definition single_cte_program : Eff Store QueryBuilder.t :=
  let* s := QueryBuilder.new test_relations "users" in
  let* s := QueryBuilder.select ["id"; "name"] s in
  let* s := QueryBuilder.where_ [Conditions.eq "status" (VStr "active")] s in
  let* b := QueryBuilder.new test_relations "posts" in
  let* b := QueryBuilder.with_ "active_users" s b in
  QueryBuilder.where_ [Conditions.in_ "author_id" [VNum 1; VNum 2; VNum 3]] b.

(** Running a builder program from the empty store and compiling what
    the resulting builder holds. *)
Definition run_toSQL (fuel : nat) (prog : Eff Store QueryBuilder.t)
    : option (outcome CompileResult) :=
  match prog ∅ with
  | (Ok b, h) => QueryBuilder.toSQL fuel b h
  | (Throw e, _) => Some (Throw e)
  end.


(** The clauses of a join list, one after the other. *)
Definition joinsText (js : list JoinNode) : string :=
  fold_right (fun j rest => joinText j ++ rest) "" js.

(** The later calls on a sub-builder that the specification names. *)
Inductive Mutation : Type :=
  | CallWhere (conditions : list WhereNode)
  | CallSelect (cols : list string)
  | CallLimit (n : SafeInteger).

Definition call (m : Mutation) : QueryBuilder.t -> Eff Store QueryBuilder.t :=
  match m with
  | CallWhere conditions => QueryBuilder.where_ conditions
  | CallSelect cols => QueryBuilder.select cols
  | CallLimit n => QueryBuilder.limit n
  end.

(** What such a call makes of the model it is applied to. *)
Definition after_call (m : Mutation) (o : QueryNode nat) : QueryNode nat :=
  match m with
  | CallWhere conditions => set_where (Some (default [] (where_ o) ++ conditions)%list) o
  | CallSelect cols => set_columns (Some cols) o
  | CallLimit n => set_limit (Some n) o
  end.

(** A sub-builder bound into an outer builder with [with]. *)
Definition bound_program : Eff Store (QueryBuilder.t * QueryBuilder.t) :=
  let* s := QueryBuilder.new test_relations "users" in
  let* s := QueryBuilder.select ["id"; "name"] s in
  let* s := QueryBuilder.where_ [Conditions.eq "status" (VStr "active")] s in
  let* b := QueryBuilder.new test_relations "posts" in
  let* b := QueryBuilder.with_ "active_users" s b in
  ret (s, b).




(** Two builders as [db.table('users').query()] and
    [db.table('posts').query()] leave them in the store. *)
Definition two_builders_store : Store :=
  <[0 := emptyQuery "users"]> {[1 := emptyQuery "posts"]}.

(** Every model in the store has its join list (the constructor creates
    one, and no builder method removes it). *)
Definition joins_present (h : Store) : Prop :=
  forall a o, h !! a = Some o -> is_Some (joins o).

(** One call of a builder method, for all methods at once. *)
Inductive BuilderCall : Type :=
  | DoSelect (cols : list string)
  | DoWhere (conditions : list WhereNode)
  | DoJoin (tbl : string) (kind : JoinType)
  | DoOrderBy (col : string) (dir : Direction)
  | DoGroupBy (cols : list string)
  | DoLimit (n : SafeInteger)
  | DoOffset (n : SafeInteger)
  | DoWith (nm : string) (subquery : QueryBuilder.t).

Definition perform (c : BuilderCall) : QueryBuilder.t -> Eff Store QueryBuilder.t :=
  match c with
  | DoSelect cols => QueryBuilder.select cols
  | DoWhere conditions => QueryBuilder.where_ conditions
  | DoJoin tbl kind => QueryBuilder.join tbl kind
  | DoOrderBy col dir => QueryBuilder.orderBy col dir
  | DoGroupBy cols => QueryBuilder.groupBy cols
  | DoLimit n => QueryBuilder.limit n
  | DoOffset n => QueryBuilder.offset n
  | DoWith nm subquery => QueryBuilder.with_ nm subquery
  end.


(** [compileWhereNodes], labelled. *)
Definition traceWhereNodes (nodes : list WhereNode) : M (list Piece) :=
  match nodes with
  | [] => ret []
  | _ =>
      let* parts := Array_map traceWhereNode nodes in
      ret (Trace_join " AND " parts)
  end.

(** The keyword a non-empty clause list is introduced by. *)
Definition keyword {A} (xs : option (list A)) (kw : string) : string :=
  match nonEmpty xs with
  | Some _ => kw
  | None => ""
  end.

(** No table, column or field name of the statement contains a dollar
    sign. *)
Definition names_dollar_free {Q} (q : QueryNode Q) : bool :=
  dollar_free (table q)
  && forallb dollar_free (default [] (columns q))
  && forallb (fun j => dollar_free (join_table j)
                       && dollar_free (left (on j))
                       && dollar_free (right (on j))) (default [] (joins q))
  && forallb dollar_free (default [] (groupBy q))
  && forallb (fun o => dollar_free (column o)) (default [] (orderBy q))
  && forallb dollar_free_fields (default [] (where_ q))
  && forallb dollar_free_fields (default [] (having q)).

(** Text that is empty or begins with a blank. *)
Definition spaced (s : string) : bool :=
  match s with
  | EmptyString => true
  | String c _ => Ascii.eqb c " "
  end.


(** The literal text of a statement around its two predicate lists. *)
Definition headText {Q} (q : QueryNode Q) : string :=
  stageJoins q (stageSelect q "").

Definition groupText {Q} (q : QueryNode Q) : string := stageGroupBy q "".

Definition tailText {Q} (q : QueryNode Q) : string :=
  stageOffset q (stageLimit q (stageOrderBy q "")).

(** A statement without sub-queries, assembled from its literal text and
    the labelled output of its WHERE and HAVING lists. *)
Definition statementText {Q} (q : QueryNode Q) (trW trH : list Piece) : string :=
  headText q ++ keyword (where_ q) " WHERE " ++ render trW
  ++ groupText q ++ keyword (having q) " HAVING " ++ render trH ++ tailText q.


(* ====================================================================== *)
(** * Further definitions: errors, bound values, the facade *)
(* ====================================================================== *)

(** A method that returns when [b] holds and otherwise throws, and
    then nothing but a [TypeError]. *)
Definition decided_by {A} (m : M A) (b : bool) : Prop :=
  forall st,
    match fst (m st) with
    | Ok _ => b = true
    | Throw e => e = TypeError /\ b = false
    end.

(** The values of a predicate tree that its compilation binds, read
    off the tree depth-first and left to right: none for a null check,
    the elements for [IN], the one value otherwise. *)
Fixpoint bound_values (node : WhereNode) : list Value :=
  match node_type node with
  | T_condition =>
      match node_op node with
      | Some OpIsNull | Some OpIsNotNull => []
      | Some OpIn =>
          match node_value node with
          | VArr vals => vals
          | _ => []
          end
      | _ => [node_value node]
      end
  | _ =>
      match node_children node with
      | Some cs => flat_map bound_values cs
      | None => []
      end
  end.

(** The predicate trees that calls of the condition factory build. *)
Inductive factory_built : WhereNode -> Prop :=
  | fb_eq f v : factory_built (Conditions.eq f v)
  | fb_ne f v : factory_built (Conditions.ne f v)
  | fb_gt f v : factory_built (Conditions.gt f v)
  | fb_lt f v : factory_built (Conditions.lt f v)
  | fb_gte f v : factory_built (Conditions.gte f v)
  | fb_lte f v : factory_built (Conditions.lte f v)
  | fb_like f p : factory_built (Conditions.like f p)
  | fb_in f vs : factory_built (Conditions.in_ f vs)
  | fb_isNull f : factory_built (Conditions.isNull f)
  | fb_isNotNull f : factory_built (Conditions.isNotNull f)
  | fb_and cs : Forall factory_built cs -> factory_built (Conditions.and cs)
  | fb_or cs : Forall factory_built cs -> factory_built (Conditions.or cs)
  | fb_not c : factory_built c -> factory_built (Conditions.not c).


(** A method that appends [vs] to [params] and advances the counter by
    their number, whatever text it returns. *)
Definition pushes {A} (m : M A) (vs : list Value) : Prop :=
  forall st, exists a,
    m st = (Ok a, mkState (params st ++ vs) (paramIndex st + length vs)).


(** A sub-query compiled on its own, on a new compiler object. *)
Definition standalone (ast : QueryAST) : outcome CompileResult * CompilerState :=
  compile ast new_SQLCompiler.

Definition standalone_sql (ast : QueryAST) : string :=
  match fst (standalone ast) with
  | Ok r => sql r
  | Throw _ => ""
  end.

Definition standalone_params (ast : QueryAST) : list Value :=
  match fst (standalone ast) with
  | Ok r => result_params r
  | Throw _ => []
  end.

(** The entry of the WITH clause for one binding. *)
Definition cteText (c : CTENode QueryAST) : string :=
  name c ++ " AS (" ++ standalone_sql (query c) ++ ")".


(** The sub-query example of the README as a tree. *)
Definition single_cte_example : QueryAST :=
  Query
    (set_with
       (Some [ mkCTENode "active_users"
                 (Query (set_where (Some [Conditions.eq "status" (VStr "active")])
                           (set_columns (Some ["id"; "name"]) (emptyQuery "users")))) ])
       (set_where (Some [Conditions.in_ "author_id" [VNum 1; VNum 2; VNum 3]])
                  (emptyQuery "posts"))).

(** [class Database]: the facade keeps the schema and the relations, and
    [table(name).query()] constructs a builder from them. The condition
    constructors that [table(name)] also hands out are those of
    [Conditions] whatever the table. The schema is read by no method
    and is left out, as in the builder. *)
Module Database.

Record t : Type := mk {
  relations : list Relation
}.

(** [table(name).query()] *)
Definition query (db : t) (table_name : string) : Eff Store QueryBuilder.t :=
  QueryBuilder.new (relations db) table_name.

End Database.

(** [b.orderBy(c1, d1).orderBy(c2, d2)...], the calls in list order. *)
Fixpoint orderByAll (calls : list (string * Direction)) (this : QueryBuilder.t)
    : Eff Store QueryBuilder.t :=
  match calls with
  | [] => ret this
  | (col, dir) :: rest =>
      let* this' := QueryBuilder.orderBy col dir this in
      orderByAll rest this'
  end.

(** The model as a tree when it binds no sub-query. *)
Definition as_leaf (o : QueryNode nat) : QueryNode QueryAST :=
  mkQueryNode (type o) (table o) (columns o) (where_ o) (joins o) (orderBy o)
              (groupBy o) (having o) (limit o) (offset o) None.


(** The clause of the model a builder call writes. *)
Inductive Clause : Type :=
  | ClColumns | ClWhere | ClJoins | ClOrderBy | ClGroupBy | ClLimit | ClOffset
  | ClWith.

Definition clause_of (c : BuilderCall) : Clause :=
  match c with
  | DoSelect _ => ClColumns
  | DoWhere _ => ClWhere
  | DoJoin _ _ => ClJoins
  | DoOrderBy _ _ => ClOrderBy
  | DoGroupBy _ => ClGroupBy
  | DoLimit _ => ClLimit
  | DoOffset _ => ClOffset
  | DoWith _ _ => ClWith
  end.


(** No model in the store has a HAVING list. *)
Definition no_having (h : Store) : Prop :=
  forall a o, h !! a = Some o -> having o = None.


(* ====================================================================== *)
(** * Text and monad lemmas *)
(* ====================================================================== *)

Lemma append_cons ch (a b : string) : String ch a ++ b = String ch (a ++ b).
Proof. reflexivity. Qed.

Lemma append_empty_l (a : string) : "" ++ a = a.
Proof. reflexivity. Qed.

Lemma append_assoc (a b c : string) : (a ++ b) ++ c = a ++ (b ++ c).
Proof.
  induction a as [|ch a IH]; [reflexivity |].
  now rewrite !append_cons, IH.
Qed.

Lemma append_empty_r (a : string) : a ++ "" = a.
Proof.
  induction a as [|ch a IH]; [reflexivity |].
  now rewrite append_cons, IH.
Qed.

Lemma bind_ok {S A B} (m : Eff S A) (k : A -> Eff S B) st a st' :
  m st = (Ok a, st') -> bind m k st = k a st'.
Proof. unfold bind. now intros ->. Qed.

Lemma bind_inv_ok {S A B} (m : Eff S A) (k : A -> Eff S B) st b st2 :
  bind m k st = (Ok b, st2) ->
  exists a st1, m st = (Ok a, st1) /\ k a st1 = (Ok b, st2).
Proof.
  unfold bind. destruct (m st) as [[a|e] st1]; [eauto | discriminate].
Qed.

Section ArrayMap.
Context {A B : Type} (f : A -> M B).

(** The callback runs on the head first; the tail sees its state. *)
Lemma Array_map_cons x xs st y st1 ys st2 :
  f x st = (Ok y, st1) ->
  Array_map f xs st1 = (Ok ys, st2) ->
  Array_map f (x :: xs) st = (Ok (y :: ys), st2).
Proof.
  intros Hx Hxs. cbn [Array_map].
  rewrite (bind_ok _ _ _ _ _ Hx).
  fold (Array_map f). now rewrite (bind_ok _ _ _ _ _ Hxs).
Qed.

Lemma Array_map_cons_inv x xs st zs st2 :
  Array_map f (x :: xs) st = (Ok zs, st2) ->
  exists y st1 ys,
    f x st = (Ok y, st1) /\ Array_map f xs st1 = (Ok ys, st2) /\ zs = y :: ys.
Proof.
  cbn [Array_map]. intros H.
  apply bind_inv_ok in H as (y & st1 & Hx & H).
  fold (Array_map f) in H.
  apply bind_inv_ok in H as (ys & st2' & Hxs & H).
  inversion H; subst. eauto 6.
Qed.
End ArrayMap.


Lemma Array_map_placeholder vals st :
  Array_map placeholder vals st =
  (Ok (dollars (paramIndex st) (length vals)),
   mkState (params st ++ vals) (paramIndex st + length vals)).
Proof.
  revert st. induction vals as [|v vals IH]; intros [ps i].
  - cbn. now rewrite app_nil_r, Nat.add_0_r.
  - erewrite Array_map_cons; [reflexivity | reflexivity |].
    rewrite IH. cbn [params paramIndex length].
    rewrite <- app_assoc. cbn [app]. do 2 f_equal. lia.
Qed.

(* ====================================================================== *)
(** * Predicate compilation *)
(* ====================================================================== *)

(** ** C10 *)

(** C10: an [AND] or [OR] node whose children list is empty, whatever
    its other fields, compiles to the text [()] and leaves both compiler
    fields as they were: no placeholder number is consumed and nothing
    is pushed. The factory calls [and()] and [or()] build such nodes. *)
Theorem empty_group_compiles_to_parens (f : option string) (o : option Operator)
    (v : Value) (st : CompilerState) :
  compileWhereNode (mkWhereNode T_AND f o v (Some [])) st = (Ok "()", st)
  /\ compileWhereNode (mkWhereNode T_OR f o v (Some [])) st = (Ok "()", st)
  /\ compileWhereNode (Conditions.and []) st = (Ok "()", st)
  /\ compileWhereNode (Conditions.or []) st = (Ok "()", st).
Proof. repeat split. Qed.

(** ** C3 *)

(** C3: a condition node with operator [IN] over an array of [k] values
    compiles, from any compiler state, to [<field> IN (...)] where the
    list holds exactly the [k] placeholders numbered consecutively from
    the current [paramIndex], joined by a comma and a space; the [k]
    elements themselves, in array order, are appended to [params] (not
    the array as one value), and [paramIndex] advances by [k]. *)
Theorem in_condition_binds_each_element (f : option string) (vals : list Value)
    (ch : option (list WhereNode)) (st : CompilerState) :
  compileWhereNode (mkWhereNode T_condition f (Some OpIn) (VArr vals) ch) st =
    (Ok (template f ++ " IN ("
         ++ Array_join ", "
              (map (fun n => "$" ++ string_of_nat n)
                   (seq (paramIndex st) (length vals)))
         ++ ")"),
     mkState (params st ++ vals) (paramIndex st + length vals)).
Proof.
  cbn [compileWhereNode node_type node_op node_value node_field].
  erewrite bind_ok by apply Array_map_placeholder.
  reflexivity.
Qed.

(** ** C8 *)


(** C8: predicate compilation is depth-first and left-to-right: when the
    first node of a list compiles to [s] leaving state [st1], and its
    right siblings compile from [st1] to [ss], then the list as a
    top-level WHERE/HAVING list is the texts joined by [ AND ] with no
    surrounding parentheses, while the same children under an explicit
    [AND] or [OR] node are joined by [ AND ] / [ OR ] inside one pair of
    parentheses. The nested example of the specification compiles to
    [(status = $1 OR (status = $2 AND age > $3))] with parameters
    ["active", "pending", 18], and a whole statement with two WHERE and
    two HAVING predicates shows both top-level lists unparenthesised. *)
Theorem predicates_compile_depth_first (n : WhereNode) (ns : list WhereNode)
    (st st1 st2 : CompilerState) (s : string) (ss : list string) :
  compileWhereNode n st = (Ok s, st1) ->
  Array_map compileWhereNode ns st1 = (Ok ss, st2) ->
  compileWhereNodes (n :: ns) st = (Ok (Array_join " AND " (s :: ss)), st2)
  /\ compileWhereNode (Conditions.and (n :: ns)) st
     = (Ok ("(" ++ Array_join " AND " (s :: ss) ++ ")"), st2)
  /\ compileWhereNode (Conditions.or (n :: ns)) st
     = (Ok ("(" ++ Array_join " OR " (s :: ss) ++ ")"), st2)
  /\ compileWhereNode spec_example new_SQLCompiler
     = (Ok "(status = $1 OR (status = $2 AND age > $3))",
        mkState [VStr "active"; VStr "pending"; VNum 18] 4)
  /\ fst (compile where_having_example new_SQLCompiler)
     = Ok (mkResult
             "SELECT * FROM users WHERE a = $1 AND b = $2 GROUP BY a HAVING c > $3 AND d < $4"
             [VNum 1; VNum 2; VNum 3; VNum 4]).
Proof.
  intros Hn Hns.
  pose proof (Array_map_cons compileWhereNode _ _ _ _ _ _ _ Hn Hns) as Hall.
  repeat split.
  - unfold compileWhereNodes. now rewrite (bind_ok _ _ _ _ _ Hall).
  - cbn [compileWhereNode Conditions.and node_type node_children].
    now rewrite (bind_ok _ _ _ _ _ Hall).
  - cbn [compileWhereNode Conditions.or node_type node_children].
    now rewrite (bind_ok _ _ _ _ _ Hall).
Qed.

Lemma predicates_compile_depth_first_witness :
  compileWhereNodes
    [Conditions.eq "status" (VStr "active"); Conditions.gt "age" (VNum 18)]
    new_SQLCompiler
  = (Ok "status = $1 AND age > $2", mkState [VStr "active"; VNum 18] 3).
Proof.
  exact (proj1 (predicates_compile_depth_first
                  (Conditions.eq "status" (VStr "active"))
                  [Conditions.gt "age" (VNum 18)]
                  new_SQLCompiler (mkState [VStr "active"] 2)
                  (mkState [VStr "active"; VNum 18] 3)
                  "status = $1" ["age > $2"] eq_refl eq_refl)).
Defined.


(** ** When predicate compilation returns *)

Lemma returns_bind {A B} (m : M A) (k : A -> M B) :
  returns m -> (forall a, returns (k a)) -> returns (bind m k).
Proof.
  intros Hm Hk st. destruct (Hm st) as (a & st1 & Ha).
  rewrite (bind_ok _ _ _ _ _ Ha). apply Hk.
Qed.

Lemma returns_ret {A} (a : A) : returns (ret a).
Proof. intros st. now exists a, st. Qed.

Lemma returns_Array_map {A B} (f : A -> M B) (xs : list A) :
  Forall (fun x => returns (f x)) xs -> returns (Array_map f xs).
Proof.
  induction 1 as [|x xs Hx _ IH]; [apply returns_ret |].
  cbn [Array_map]. apply returns_bind; [exact Hx | intros y].
  apply returns_bind; [exact IH | intros ys]. apply returns_ret.
Qed.

Lemma returns_placeholder v : returns (placeholder v).
Proof. intros st. eexists _, _. reflexivity. Qed.

Lemma compileWhereNode_returns (node : WhereNode) :
  in_values_are_arrays node = true -> returns (compileWhereNode node).
Proof.
  induction node as [ty f o v ch IH] using WhereNode_tree_ind.
  intros Hwf.
  assert (Hch : forall cs, ch = Some cs -> ty <> T_condition ->
                returns (Array_map compileWhereNode cs)).
  { intros cs -> Hty. apply returns_Array_map.
    cbn in IH. rewrite Forall_forall in IH |- *. intros c Hc.
    apply IH; [exact Hc |].
    destruct ty; [congruence | | |]; cbn in Hwf;
      rewrite forallb_forall in Hwf; apply Hwf; now apply list_elem_of_In. }
  destruct ty; cbn [compileWhereNode node_type node_children node_op node_value].
  - destruct o as [[]|]; cbn in Hwf;
      try (apply returns_bind; [apply returns_placeholder | intros; apply returns_ret]);
      try apply returns_ret.
    destruct v; try discriminate.
    apply returns_bind; [| intros; apply returns_ret].
    apply returns_Array_map, Forall_forall. intros; apply returns_placeholder.
  - destruct ch as [cs|]; [| apply returns_ret].
    apply returns_bind; [now apply Hch | intros; apply returns_ret].
  - destruct ch as [cs|]; [| apply returns_ret].
    apply returns_bind; [now apply Hch | intros; apply returns_ret].
  - destruct ch as [cs|]; [| apply returns_ret].
    apply returns_bind; [now apply Hch | intros; apply returns_ret].
Qed.

(* ====================================================================== *)
(** * Reading placeholders back from text *)
(* ====================================================================== *)

Lemma dollar_free_app (a b : string) :
  dollar_free (a ++ b) = dollar_free a && dollar_free b.
Proof.
  induction a as [|c a IH]; [reflexivity |].
  rewrite append_cons. cbn [dollar_free]. rewrite IH. now rewrite andb_assoc.
Qed.

Lemma placeholders_free_app (a b : string) :
  dollar_free a = true -> placeholders (a ++ b) = placeholders b.
Proof.
  induction a as [|c a IH]; [reflexivity |].
  rewrite append_cons. cbn [dollar_free placeholders].
  intros [Hc Ha]%andb_true_iff.
  destruct (Ascii.eqb c "$"); [discriminate | now apply IH].
Qed.

Lemma leading_number_stop (k : string) (acc : option nat) :
  starts_without_digit k = true -> leading_number k acc = acc.
Proof.
  destruct k as [|c k]; [reflexivity |]. cbn.
  now destruct (is_digit c).
Qed.

Lemma leading_number_digits (d : Decimal.uint) (a : nat) (k : string) :
  starts_without_digit k = true ->
  leading_number (NilEmpty.string_of_uint d ++ k) (Some a)
  = Some (Nat.of_uint_acc d a).
Proof.
  intros Hk. revert a.
  induction d as [|d IH|d IH|d IH|d IH|d IH|d IH|d IH|d IH|d IH|d IH]; intros a;
    cbn [NilEmpty.string_of_uint Nat.of_uint_acc];
    [now apply leading_number_stop | ..];
    rewrite append_cons; cbn [leading_number];
    change (is_digit _) with true; cbv iota;
    rewrite IH, Nat.tail_mul_spec; f_equal; f_equal;
    unfold digit_value; cbn [default]; unfold id;
    match goal with
    | |- context [nat_of_ascii ?c - 48] =>
        let v := eval vm_compute in (nat_of_ascii c - 48) in
        change (nat_of_ascii c - 48) with v
    end; lia.
Qed.

Lemma dollar_free_digits (d : Decimal.uint) :
  dollar_free (NilEmpty.string_of_uint d) = true.
Proof. induction d; cbn; auto. Qed.

Lemma to_uint_not_Nil (n : nat) : Nat.to_uint n <> Decimal.Nil.
Proof.
  rewrite <- (DecimalNat.Unsigned.of_to n) at 1.
  rewrite DecimalNat.Unsigned.to_of. apply DecimalFacts.unorm_nonnil.
Qed.

Example placeholders_of_text :
  placeholders "a = $1 AND b IN ($2, $13) AND c = '$' AND d > $007"
  = [1; 2; 13; 7].
Proof. reflexivity. Qed.

(** A rendered placeholder reads back as its own number, whatever
    follows it, provided that is not another digit. *)
Lemma placeholders_dollar (n : nat) (k : string) :
  starts_without_digit k = true ->
  placeholders ("$" ++ string_of_nat n ++ k) = n :: placeholders k.
Proof.
  intros Hk. rewrite append_cons, append_empty_l. cbn [placeholders].
  change (Ascii.eqb "$" "$") with true. cbv iota.
  assert (leading_number (string_of_nat n ++ k) None = Some n) as ->.
  { unfold string_of_nat. pose proof (to_uint_not_Nil n) as Hn.
    pose proof (DecimalNat.Unsigned.of_to n) as Hof. unfold Nat.of_uint in Hof.
    destruct (Nat.to_uint n) as [|d|d|d|d|d|d|d|d|d|d]; [congruence | ..];
      cbn [NilEmpty.string_of_uint]; rewrite append_cons; cbn [leading_number];
      change (is_digit _) with true; cbv iota;
      rewrite leading_number_digits by exact Hk;
      f_equal; rewrite <- Hof; cbn [Nat.of_uint_acc]; f_equal. }
  unfold string_of_nat.
  now rewrite placeholders_free_app by apply dollar_free_digits.
Qed.

(* ====================================================================== *)
(** * The labelled output renders to the compiler's text *)
(* ====================================================================== *)

Lemma render_app (a b : list Piece) : render (a ++ b) = render a ++ render b.
Proof.
  induction a as [|p a IH]; [reflexivity |].
  cbn [app render fold_right]. fold (render (a ++ b)) (render a).
  now rewrite IH, append_assoc.
Qed.

Lemma render_cons (p : Piece) (a : list Piece) :
  render (p :: a) = render_piece p ++ render a.
Proof. reflexivity. Qed.

Lemma holes_app (a b : list Piece) : holes (a ++ b) = (holes a ++ holes b)%list.
Proof. unfold holes. now rewrite flat_map_app. Qed.

Lemma render_Trace_join (sep : string) (parts : list (list Piece)) :
  render (Trace_join sep parts) = Array_join sep (map render parts).
Proof.
  unfold Array_join.
  induction parts as [|p [|p' parts] IH]; [reflexivity | reflexivity |].
  change (Trace_join sep (p :: p' :: parts))
    with (p ++ Text sep :: Trace_join sep (p' :: parts))%list.
  rewrite render_app, render_cons, IH. reflexivity.
Qed.

Lemma holes_Trace_join (sep : string) (parts : list (list Piece)) :
  holes (Trace_join sep parts) = flat_map holes parts.
Proof.
  induction parts as [|p [|p' parts] IH]; [reflexivity | |].
  - cbn. now rewrite app_nil_r.
  - change (Trace_join sep (p :: p' :: parts))
      with (p ++ Text sep :: Trace_join sep (p' :: parts))%list.
    rewrite holes_app. change (holes (Text sep :: ?t)) with (holes t).
    now rewrite IH.
Qed.

Lemma Array_map_rendered {A} (f : A -> M string) (g : A -> M (list Piece))
    (xs : list A) :
  Forall (fun x => forall st, f x st = rendered render (g x) st) xs ->
  forall st,
    Array_map f xs st
    = (let* parts := Array_map g xs in ret (map render parts)) st.
Proof.
  induction 1 as [|x xs Hx _ IH]; intros st; [reflexivity |].
  cbn [Array_map]. fold (Array_map f) (Array_map g).
  unfold bind. rewrite Hx. unfold rendered, bind.
  destruct (g x st) as [[y|e] st1]; cbn [ret]; [| reflexivity].
  rewrite IH. unfold bind.
  destruct (Array_map g xs st1) as [[ys|e] st2]; reflexivity.
Qed.

Lemma Array_map_placeholder_rendered (vals : list Value) (st : CompilerState) :
  Array_map placeholder vals st
  = (let* parts := Array_map placeholderT vals in ret (map render parts)) st.
Proof.
  apply Array_map_rendered, Forall_forall. intros v _ st'.
  unfold rendered, bind, placeholderT, placeholder, ret, render. cbn.
  now rewrite append_empty_r.
Qed.

Lemma compileWhereNode_rendered (node : WhereNode) (st : CompilerState) :
  compileWhereNode node st = rendered render (traceWhereNode node) st.
Proof.
  revert st. induction node as [ty f o v ch IH] using WhereNode_tree_ind.
  assert (Hgroup : forall (l r sep : string) cs st,
             ch = Some cs ->
             (let* parts := Array_map compileWhereNode cs in
              ret (l ++ Array_join sep parts ++ r)) st
             = rendered render
                 (let* parts := Array_map traceWhereNode cs in
                  ret (Text l :: Trace_join sep parts ++ [Text r])%list) st).
  { intros l r sep cs st ->. cbn in IH.
    unfold rendered, bind.
    rewrite (Array_map_rendered _ _ _ IH). unfold bind.
    destruct (Array_map traceWhereNode cs st) as [[parts|e] st1]; [| reflexivity].
    cbn [ret]. rewrite render_cons, render_app, render_Trace_join.
    cbn [render_piece render fold_right]. now rewrite append_empty_r. }
  intros st.
  destruct ty; cbn [compileWhereNode traceWhereNode node_type node_children
                    node_op node_value node_field].
  - assert (Hleaf :
      (let* p := placeholder v in
       ret (template f ++ " " ++ template (Operator_text <$> o) ++ " " ++ p)) st
      = rendered render
          (let* p := placeholderT v in
           ret (Text (template f ++ " " ++ template (Operator_text <$> o) ++ " ")
                :: p)) st).
    { unfold rendered, bind, placeholder, placeholderT, ret.
      cbn [render fold_right render_piece].
      now rewrite append_empty_r, !append_assoc. }
    destruct o as [[]|]; try exact Hleaf.
    + destruct v; try reflexivity.
      unfold rendered, bind. rewrite Array_map_placeholder_rendered.
      unfold bind.
      destruct (Array_map placeholderT elems st) as [[parts|e] st1]; [| reflexivity].
      cbn [ret]. rewrite render_cons, render_app, render_Trace_join.
      cbn [render_piece render fold_right].
      now rewrite append_empty_r, !append_assoc.
    + unfold rendered, bind, ret. cbn [render fold_right render_piece].
      now rewrite append_empty_r.
    + unfold rendered, bind, ret. cbn [render fold_right render_piece].
      now rewrite append_empty_r.
  - destruct ch as [cs|]; [now apply Hgroup | reflexivity].
  - destruct ch as [cs|]; [now apply Hgroup | reflexivity].
  - destruct ch as [cs|]; [now apply Hgroup | reflexivity].
Qed.

(* ====================================================================== *)
(** * What the labelled output says about the compiler fields *)
(* ====================================================================== *)

Lemma Array_map_runs {A B} (f : A -> M B) xs st ys st' :
  Array_map f xs st = (Ok ys, st') -> runs_through f xs st ys st'.
Proof.
  revert st ys. induction xs as [|x xs IH]; intros st ys H.
  - inversion H; subst. constructor.
  - apply Array_map_cons_inv in H as (y & st1 & ys' & Hx & Hxs & ->).
    econstructor; eauto.
Qed.

Lemma accounts_refl st : accounts st [] st.
Proof.
  unfold accounts. cbn. now rewrite app_nil_r, Nat.add_0_r.
Qed.

Lemma accounts_trans st h1 st1 h2 st2 :
  accounts st h1 st1 -> accounts st1 h2 st2 -> accounts st (h1 ++ h2) st2.
Proof.
  intros (Hp1 & Ho1 & Hi1) (Hp2 & Ho2 & Hi2). unfold accounts.
  rewrite !map_app, length_app, seq_app, Hp2, Hp1, Ho1, Ho2, Hi2, Hi1.
  rewrite <- app_assoc. repeat split. lia.
Qed.

Lemma accounts_placeholderT v st tr st' :
  placeholderT v st = (Ok tr, st') -> accounts st (holes tr) st'.
Proof.
  unfold placeholderT. intros H; inversion H; subst; clear H.
  unfold accounts. cbn. repeat split. lia.
Qed.

Lemma runs_accounts {A} (g : A -> M (list Piece)) xs st parts st' :
  runs_through g xs st parts st' ->
  Forall (fun x => forall st tr st',
            g x st = (Ok tr, st') -> accounts st (holes tr) st') xs ->
  accounts st (flat_map holes parts) st'.
Proof.
  induction 1 as [st|x xs st y st1 ys st2 Hx _ IH]; intros Hall.
  - apply accounts_refl.
  - apply Forall_cons in Hall as [Hhd Htl]. cbn [flat_map].
    eapply accounts_trans; [eapply Hhd; eassumption | now apply IH].
Qed.

Lemma traceWhereNode_accounts (node : WhereNode) st tr st' :
  traceWhereNode node st = (Ok tr, st') -> accounts st (holes tr) st'.
Proof.
  revert st tr st'. induction node as [ty f o v ch IH] using WhereNode_tree_ind.
  assert (Hret : forall (tr0 tr : list Piece) (st st' : CompilerState),
             holes tr0 = [] -> ret tr0 st = (Ok tr, st') ->
             accounts st (holes tr) st').
  { intros tr0 tr st st' Hh H. inversion H; subst. rewrite Hh.
    apply accounts_refl. }
  assert (Hgroup : forall (l r sep : string) cs st tr st',
             ch = Some cs ->
             (let* parts := Array_map traceWhereNode cs in
              ret (Text l :: Trace_join sep parts ++ [Text r])%list) st
             = (Ok tr, st') ->
             accounts st (holes tr) st').
  { intros l r sep cs st tr st' -> H. cbn in IH.
    apply bind_inv_ok in H as (parts & st1 & Hparts & H).
    inversion H; subst; clear H.
    change (holes (Text l :: ?t)) with (holes t).
    rewrite holes_app, holes_Trace_join. cbn [holes flat_map]. rewrite app_nil_r.
    eapply runs_accounts; [apply Array_map_runs; eassumption | exact IH]. }
  intros st tr st'.
  destruct ty; cbn [traceWhereNode node_type node_children node_op node_value
                    node_field].
  - assert (Hleaf : forall t,
      (let* p := placeholderT v in ret (Text t :: p)) st = (Ok tr, st') ->
      accounts st (holes tr) st').
    { intros t H. apply bind_inv_ok in H as (p & st1 & Hp & H).
      inversion H; subst; clear H. change (holes (Text t :: p)) with (holes p).
      now apply (accounts_placeholderT v). }
    destruct o as [[]|]; try apply Hleaf; try (apply Hret; reflexivity).
    destruct v; try discriminate. intros H.
    apply bind_inv_ok in H as (parts & st1 & Hparts & H).
    inversion H; subst; clear H.
    change (holes (Text ?l :: ?t)) with (holes t).
    rewrite holes_app, holes_Trace_join. cbn [holes flat_map]. rewrite app_nil_r.
    eapply runs_accounts; [apply Array_map_runs; eassumption |].
    apply Forall_forall. intros x _ st0 tr0 st0'. apply (accounts_placeholderT x).
  - destruct ch as [cs|]; [now apply Hgroup | apply Hret; reflexivity].
  - destruct ch as [cs|]; [now apply Hgroup | apply Hret; reflexivity].
  - destruct ch as [cs|]; [now apply Hgroup | apply Hret; reflexivity].
Qed.

(* ====================================================================== *)
(** * The emitted text reads back as the labelled placeholders *)
(* ====================================================================== *)

Lemma scans_nil : scans [].
Proof. intros k _. reflexivity. Qed.

Lemma scans_text (s : string) (tr : list Piece) :
  dollar_free s = true -> scans tr -> scans (Text s :: tr).
Proof.
  intros Hs Htr k Hk. rewrite render_cons. cbn [render_piece].
  rewrite append_assoc, placeholders_free_app by exact Hs.
  now apply Htr.
Qed.

Lemma scans_hole (n : nat) (v : Value) : scans [Hole n v].
Proof.
  intros k Hk. cbn [render fold_right render_piece holes flat_map map app fst].
  rewrite append_empty_r, append_assoc.
  now apply placeholders_dollar.
Qed.

Lemma separator_starts (sep rest : string) :
  separator sep = true -> starts_without_digit (sep ++ rest) = true.
Proof.
  unfold separator. intros [[_ Hs]%andb_true_iff Hne]%andb_true_iff.
  destruct sep; [discriminate | exact Hs].
Qed.

Lemma separator_free (sep : string) : separator sep = true -> dollar_free sep = true.
Proof.
  unfold separator. now intros [[H _]%andb_true_iff _]%andb_true_iff.
Qed.

Lemma scans_sep (tr1 : list Piece) (sep : string) (tr2 : list Piece) :
  scans tr1 -> separator sep = true -> scans tr2 ->
  scans (tr1 ++ Text sep :: tr2).
Proof.
  intros H1 Hsep H2 k Hk.
  rewrite render_app, render_cons, holes_app, map_app. cbn [render_piece].
  change (holes (Text sep :: tr2)) with (holes tr2).
  rewrite !append_assoc, H1 by now apply separator_starts.
  rewrite placeholders_free_app by now apply separator_free.
  rewrite H2 by exact Hk. now rewrite app_assoc.
Qed.

Lemma scans_join (sep : string) (parts : list (list Piece)) :
  separator sep = true -> Forall scans parts -> scans (Trace_join sep parts).
Proof.
  intros Hsep. induction parts as [|p [|p' parts] IH]; intros Hall.
  - apply scans_nil.
  - now apply Forall_cons in Hall as [Hp _].
  - apply Forall_cons in Hall as [Hp Hrest].
    change (Trace_join sep (p :: p' :: parts))
      with (p ++ Text sep :: Trace_join sep (p' :: parts))%list.
    apply scans_sep; auto.
Qed.

Lemma scans_wrap (l r : string) (mid : list Piece) :
  dollar_free l = true -> separator r = true -> scans mid ->
  scans (Text l :: mid ++ [Text r]).
Proof.
  intros Hl Hr Hmid. apply scans_text; [exact Hl |].
  apply scans_sep; [exact Hmid | exact Hr | apply scans_nil].
Qed.

Lemma runs_scans {A} (g : A -> M (list Piece)) xs st parts st' :
  runs_through g xs st parts st' ->
  Forall (fun x => forall st tr st', g x st = (Ok tr, st') -> scans tr) xs ->
  Forall scans parts.
Proof.
  induction 1 as [st|x xs st y st1 ys st2 Hx _ IH]; intros Hall.
  - constructor.
  - apply Forall_cons in Hall as [Hhd Htl].
    constructor; [eapply Hhd; eassumption | now apply IH].
Qed.

Lemma dollar_free_operator (o : option Operator) :
  dollar_free (template (Operator_text <$> o)) = true.
Proof. now destruct o as [[]|]. Qed.

Lemma traceWhereNode_scans (node : WhereNode) :
  dollar_free_fields node = true ->
  forall st tr st', traceWhereNode node st = (Ok tr, st') -> scans tr.
Proof.
  induction node as [ty f o v ch IH] using WhereNode_tree_ind.
  intros Hfree.
  assert (Hret : forall (tr0 tr : list Piece) (st st' : CompilerState),
             scans tr0 -> ret tr0 st = (Ok tr, st') -> scans tr).
  { intros tr0 tr st st' Hs H. now inversion H; subst. }
  assert (Hgroup : forall (l r sep : string) cs st tr st',
             ch = Some cs -> ty <> T_condition ->
             dollar_free l = true -> separator r = true -> separator sep = true ->
             (let* parts := Array_map traceWhereNode cs in
              ret (Text l :: Trace_join sep parts ++ [Text r])%list) st
             = (Ok tr, st') ->
             scans tr).
  { intros l r sep cs st tr st' -> Hty Hl Hr Hsep H. cbn in IH.
    apply bind_inv_ok in H as (parts & st1 & Hparts & H).
    inversion H; subst; clear H.
    apply scans_wrap; [exact Hl | exact Hr |].
    apply scans_join; [exact Hsep |].
    eapply runs_scans; [apply Array_map_runs; eassumption |].
    rewrite Forall_forall in IH |- *. intros c Hc. apply IH; [exact Hc |].
    destruct ty; [congruence | | |]; cbn in Hfree;
      rewrite forallb_forall in Hfree; apply Hfree; now apply list_elem_of_In. }
  intros st tr st'.
  destruct ty; cbn [traceWhereNode node_type node_children node_op node_value
                    node_field].
  - cbn in Hfree.
    assert (Hleaf :
      (let* p := placeholderT v in
       ret (Text (template f ++ " " ++ template (Operator_text <$> o) ++ " ")
            :: p)) st = (Ok tr, st') -> scans tr).
    { intros H. apply bind_inv_ok in H as (p & st1 & Hp & H).
      inversion H; subst; clear H. inversion Hp; subst; clear Hp.
      apply scans_text; [| apply scans_hole].
      rewrite !dollar_free_app, Hfree, dollar_free_operator. reflexivity. }
    assert (Hnull :
      ret [Text (template f ++ " " ++ template (Operator_text <$> o))] st
      = (Ok tr, st') -> scans tr).
    { apply Hret. apply scans_text; [| apply scans_nil].
      rewrite !dollar_free_app, Hfree, dollar_free_operator. reflexivity. }
    destruct o as [[]|]; try exact Hleaf; try exact Hnull.
    destruct v; try discriminate. intros H.
    apply bind_inv_ok in H as (parts & st1 & Hparts & H).
    inversion H; subst; clear H.
    apply scans_wrap; [| reflexivity |].
    + rewrite dollar_free_app, Hfree. reflexivity.
    + apply scans_join; [reflexivity |].
      eapply runs_scans; [apply Array_map_runs; eassumption |].
      apply Forall_forall. intros x _ st0 tr0 st0' H0.
      inversion H0; subst. apply scans_hole.
  - destruct ch as [cs|];
      [now apply Hgroup | apply Hret, scans_text; [reflexivity | apply scans_nil]].
  - destruct ch as [cs|];
      [now apply Hgroup | apply Hret, scans_text; [reflexivity | apply scans_nil]].
  - destruct ch as [cs|];
      [now apply Hgroup | apply Hret, scans_text; [reflexivity | apply scans_nil]].
Qed.


(** ** One predicate tree, all together *)

Lemma combine_fst_snd {A B} (l : list (A * B)) :
  combine (map fst l) (map snd l) = l.
Proof. induction l as [|[a b] l IH]; [reflexivity | cbn; now rewrite IH]. Qed.

Lemma holes_bound (ps : list Value) (hs : list (nat * Value)) (i : nat) :
  map fst hs = seq i (length hs) ->
  i = S (length ps) ->
  Forall (fun h => (ps ++ map snd hs)%list !! (fst h - 1) = Some (snd h)) hs.
Proof.
  revert ps i. induction hs as [|[n v] hs IH]; intros ps i Hord Hi; [constructor |].
  cbn [map length seq fst snd] in Hord. injection Hord as -> Hord.
  constructor.
  - cbn [fst snd map]. subst i.
    replace (S (length ps) - 1) with (length ps) by lia.
    apply list_lookup_middle. reflexivity.
  - cbn [map snd]. specialize (IH (ps ++ [v])%list (S i) Hord).
    rewrite <- app_assoc in IH. apply IH.
    rewrite length_app. cbn. lia.
Qed.

(** The whole account of one predicate tree's compilation. *)
Lemma compileWhereNode_labelled (node : WhereNode) (st : CompilerState) :
  in_values_are_arrays node = true ->
  counter_in_step st ->
  exists (text : string) (tr : list Piece) (st' : CompilerState) (new : list Value),
    compileWhereNode node st = (Ok text, st')
    /\ traceWhereNode node st = (Ok tr, st')
    /\ render tr = text
    /\ params st' = (params st ++ new)%list
    /\ counter_in_step st'
    /\ holes tr = combine (seq (paramIndex st) (length new)) new
    /\ Forall (fun h => params st' !! (fst h - 1) = Some (snd h)) (holes tr)
    /\ (dollar_free_fields node = true ->
        placeholders text = seq (paramIndex st) (length new)).
Proof.
  intros Hwf Hstep.
  destruct (compileWhereNode_returns node Hwf st) as (text & st' & Hrun).
  pose proof (compileWhereNode_rendered node st) as Hren.
  rewrite Hrun in Hren. unfold rendered, bind in Hren.
  destruct (traceWhereNode node st) as [[tr|e] st1] eqn:Htr; [| discriminate].
  inversion Hren; subst text st1; clear Hren.
  destruct (traceWhereNode_accounts node _ _ _ Htr) as (Hp & Hord & Hidx).
  exists (render tr), tr, st', (map snd (holes tr)).
  rewrite length_map.
  repeat split; try assumption.
  - unfold counter_in_step in *. rewrite Hidx, Hp, length_app, length_map. lia.
  - rewrite <- Hord. symmetry. apply combine_fst_snd.
  - rewrite Hp. apply holes_bound with (i := paramIndex st); assumption.
  - intros Hfree.
    pose proof (traceWhereNode_scans node Hfree _ _ _ Htr "" eq_refl) as Hscan.
    rewrite append_empty_r in Hscan. cbn [placeholders] in Hscan.
    rewrite app_nil_r in Hscan. now rewrite Hscan.
Qed.


(* ====================================================================== *)
(** * Whole statements *)
(* ====================================================================== *)

Lemma compile_stages (q : QueryNode QueryAST) :
  compile (Query q)
  = (let* _ := reset in
     let* sql := stageWith q "" in
     compileBody q sql).
Proof. reflexivity. Qed.

(** [compile] overwrites both fields before it reads either. *)
Lemma compile_ignores_state (ast : QueryAST) (st1 st2 : CompilerState) :
  compile ast st1 = compile ast st2.
Proof. destruct ast as [q]. reflexivity. Qed.

Lemma Array_map_length {A B} (f : A -> M B) xs st ys st' :
  Array_map f xs st = (Ok ys, st') -> length ys = length xs.
Proof.
  intros H. apply Array_map_runs in H.
  induction H; cbn; congruence.
Qed.

Lemma compileWhereNodes_returns (nodes : list WhereNode) :
  forallb in_values_are_arrays nodes = true -> returns (compileWhereNodes nodes).
Proof.
  intros Hwf. destruct nodes as [|n ns]; [apply returns_ret |].
  unfold compileWhereNodes.
  apply returns_bind; [| intros; apply returns_ret].
  apply returns_Array_map, Forall_forall. intros c Hc.
  apply compileWhereNode_returns.
  rewrite forallb_forall in Hwf. apply Hwf. now apply list_elem_of_In.
Qed.

Lemma nonEmpty_default {A} (xs : option (list A)) (l : list A) :
  nonEmpty xs = Some l -> default [] xs = l.
Proof. destruct xs as [[|x xs]|]; cbn; congruence. Qed.

Lemma stageWhere_returns {Q} (q : QueryNode Q) (sql : string) :
  forallb in_values_are_arrays (default [] (where_ q)) = true ->
  returns (stageWhere q sql).
Proof.
  intros Hwf. unfold stageWhere.
  destruct (nonEmpty (where_ q)) as [nodes|] eqn:E; [| apply returns_ret].
  apply nonEmpty_default in E. rewrite E in Hwf.
  apply returns_bind; [now apply compileWhereNodes_returns | intros; apply returns_ret].
Qed.

Lemma stageHaving_returns {Q} (q : QueryNode Q) (sql : string) :
  forallb in_values_are_arrays (default [] (having q)) = true ->
  returns (stageHaving q sql).
Proof.
  intros Hwf. unfold stageHaving.
  destruct (nonEmpty (having q)) as [nodes|] eqn:E; [| apply returns_ret].
  apply nonEmpty_default in E. rewrite E in Hwf.
  apply returns_bind; [now apply compileWhereNodes_returns | intros; apply returns_ret].
Qed.

Lemma compileBody_returns (q : QueryNode QueryAST) (sql : string) :
  forallb in_values_are_arrays (default [] (where_ q)) = true ->
  forallb in_values_are_arrays (default [] (having q)) = true ->
  returns (compileBody q sql).
Proof.
  intros Hw Hh. unfold compileBody.
  apply returns_bind; [now apply stageWhere_returns | intros s1].
  apply returns_bind; [now apply stageHaving_returns | intros s2].
  intros st. eexists _, _. reflexivity.
Qed.

Lemma compile_returns (ast : QueryAST) :
  query_in_values_are_arrays ast = true -> returns (compile ast).
Proof.
  induction ast as [q IH] using QueryAST_tree_ind.
  cbn [query_in_values_are_arrays].
  intros [[Hw Hh]%andb_true_iff Hc]%andb_true_iff.
  rewrite compile_stages.
  apply returns_bind; [intros st; eexists _, _; reflexivity | intros _].
  apply returns_bind; [| intros; now apply compileBody_returns].
  unfold stageWith. destruct (with_ q) as [[|c cs]|]; try apply returns_ret.
  apply returns_bind; [| intros; apply returns_ret].
  apply returns_Array_map. cbn [default] in IH.
  rewrite Forall_forall in IH |- *. intros x Hx.
  unfold compileCTE. apply returns_bind.
  - apply IH; [exact Hx |]. rewrite forallb_forall in Hc.
    apply Hc. now apply list_elem_of_In.
  - intros [s ps]. apply returns_ret.
Qed.

(** ** What each stage appends *)

Lemma compileJoins_appends (js : list JoinNode) (acc : string) :
  exists post, compileJoins acc js = acc ++ post.
Proof.
  unfold compileJoins. revert acc.
  induction js as [|j js IH]; intros acc; cbn [fold_left].
  - exists "". now rewrite append_empty_r.
  - destruct (IH (compileJoin acc j)) as [post ->].
    unfold compileJoin. rewrite append_assoc. eauto.
Qed.

Lemma stageJoins_appends {Q} (q : QueryNode Q) (sql : string) :
  exists post, stageJoins q sql = sql ++ post.
Proof.
  unfold stageJoins. destruct (nonEmpty (joins q)).
  - apply compileJoins_appends.
  - exists "". now rewrite append_empty_r.
Qed.

Lemma stageWhere_appends {Q} (q : QueryNode Q) (sql : string) st s st' :
  stageWhere q sql st = (Ok s, st') -> exists post, s = sql ++ post.
Proof.
  unfold stageWhere. destruct (nonEmpty (where_ q)); intros H.
  - apply bind_inv_ok in H as (w & st1 & _ & H). inversion H; subst.
    rewrite append_assoc. eauto.
  - inversion H; subst. exists "". now rewrite append_empty_r.
Qed.

Lemma stageHaving_appends {Q} (q : QueryNode Q) (sql : string) st s st' :
  stageHaving q sql st = (Ok s, st') -> exists post, s = sql ++ post.
Proof.
  unfold stageHaving. destruct (nonEmpty (having q)); intros H.
  - apply bind_inv_ok in H as (w & st1 & _ & H). inversion H; subst.
    rewrite append_assoc. eauto.
  - inversion H; subst. exists "". now rewrite append_empty_r.
Qed.

Lemma stageTail_appends {Q} (q : QueryNode Q) (sql : string) :
  exists post,
    stageOffset q (stageLimit q (stageOrderBy q (sql))) = sql ++ post.
Proof.
  unfold stageOffset, stageLimit, stageOrderBy, stageGroupBy.
  destruct (offset q), (limit q), (nonEmpty (orderBy q));
    rewrite ?append_assoc; eauto.
  exists "". now rewrite append_empty_r.
Qed.

Lemma stageGroupBy_appends {Q} (q : QueryNode Q) (sql : string) :
  exists post, stageGroupBy q sql = sql ++ post.
Proof.
  unfold stageGroupBy. destruct (nonEmpty (groupBy q)); eauto.
  exists "". now rewrite append_empty_r.
Qed.


Lemma compileBody_appends (q : QueryNode QueryAST) (acc : string) st r st' :
  compileBody q acc st = (Ok r, st') ->
  exists post, sql r = stageSelect q acc ++ post.
Proof.
  unfold compileBody. intros H.
  apply bind_inv_ok in H as (s1 & st1 & H1 & H).
  apply bind_inv_ok in H as (s2 & st2 & H2 & H).
  unfold stageReturn in H. inversion H; subst; clear H. cbn [sql].
  destruct (stageTail_appends q s2) as [p4 ->].
  apply stageHaving_appends in H2 as [p3 ->].
  destruct (stageGroupBy_appends q s1) as [p2 ->].
  apply stageWhere_appends in H1 as [p1 ->].
  destruct (stageJoins_appends q (stageSelect q acc)) as [p0 ->].
  rewrite !append_assoc. eauto.
Qed.

Lemma stageWith_shape (q : QueryNode QueryAST) st pre st' :
  stageWith q "" st = (Ok pre, st') ->
  exists ctes,
    pre = withClause ctes /\ length ctes = length (default [] (with_ q)).
Proof.
  unfold stageWith. destruct (with_ q) as [[|c cs]|]; intros H.
  - inversion H; subst. now exists [].
  - apply bind_inv_ok in H as (ctes & st1 & Hmap & H). inversion H; subst.
    apply Array_map_length in Hmap. exists ctes. split; [| exact Hmap].
    destruct ctes; [discriminate | reflexivity].
  - inversion H; subst. now exists [].
Qed.

(** ** C9 *)

(** C9: when the projection is absent or is the empty list, and no [IN]
    condition lacks its array (so that [compile] returns), the emitted
    statement is the WITH clause of the sub-queries, if any, followed by
    [SELECT * FROM <table>] and then the remaining clauses: the empty
    projection is rendered as a star. For the model a new builder
    starts with, the whole statement is [SELECT * FROM <table>]. *)
Theorem empty_projection_selects_star (q : QueryNode QueryAST) (st : CompilerState) :
  columns q = None \/ columns q = Some [] ->
  query_in_values_are_arrays (Query q) = true ->
  exists (r : CompileResult) (st' : CompilerState) (ctes : list string)
         (post : string),
    compile (Query q) st = (Ok r, st')
    /\ length ctes = length (default [] (with_ q))
    /\ sql r = withClause ctes ++ "SELECT * FROM " ++ table q ++ post
    /\ fst (compile (Query (emptyQuery (table q))) st)
       = Ok (mkResult ("SELECT * FROM " ++ table q) []).
Proof.
  intros Hcols Hwf.
  destruct (compile_returns _ Hwf st) as (r & st' & Hrun).
  pose proof Hrun as H. rewrite compile_stages in H.
  apply bind_inv_ok in H as ([] & st0 & _ & H).
  apply bind_inv_ok in H as (pre & st1 & Hpre & H).
  apply stageWith_shape in Hpre as (ctes & -> & Hlen).
  apply compileBody_appends in H as [post Hsql].
  exists r, st', ctes, post. repeat split; try assumption.
  rewrite Hsql. unfold stageSelect.
  assert (compileColumns (columns q) = "*") as ->
    by (destruct Hcols as [-> | ->]; reflexivity).
  rewrite !append_assoc. reflexivity.
Qed.

Lemma empty_projection_selects_star_witness :
  exists (r : CompileResult) (post : string),
    fst (compile two_ctes_example new_SQLCompiler) = Ok r
    /\ sql r
       = "WITH a AS (SELECT * FROM users WHERE status = $1), b AS (SELECT * FROM posts WHERE published = $1) "
         ++ "SELECT * FROM comments" ++ post.
Proof.
  destruct (empty_projection_selects_star (node_of two_ctes_example) new_SQLCompiler
              (or_intror eq_refl) eq_refl)
    as (r & st' & ctes & post & Hrun & Hlen & Hsql & _).
  exists r, " WHERE id IN ($2, $3)".
  change (Query (node_of two_ctes_example)) with two_ctes_example in Hrun.
  split; [now rewrite Hrun |].
  vm_compute in Hrun. injection Hrun as <- _. reflexivity.
Defined.

(** ** C4 *)

(** C4: [compile] overwrites both compiler fields on entry, so its
    result and the fields it leaves depend on the model alone: running
    it a second time on the same compiler object, with the model
    unchanged, returns the same text and parameters and leaves the same
    fields, and so does running it on any other compiler object.
    [toSQL], which compiles on a new compiler object each time and has
    no access to modify the store, returns what any compiler object
    would. *)
Theorem compile_is_repeatable (ast : QueryAST) (st : CompilerState) :
  compile ast (snd (compile ast st)) = compile ast st
  /\ (forall other : CompilerState, compile ast other = compile ast st)
  /\ (forall (fuel : nat) (b : QueryBuilder.t) (h : Store),
        QueryBuilder.toSQL fuel b h
        = (tree ← reify fuel h (QueryBuilder.ast b); Some (fst (compile tree st)))).
Proof.
  split; [apply compile_ignores_state |].
  split; [intros other; apply compile_ignores_state |].
  intros fuel b h. unfold QueryBuilder.toSQL.
  destruct (reify fuel h (QueryBuilder.ast b)) as [tree|]; [| reflexivity].
  cbn. do 2 f_equal. apply compile_ignores_state.
Qed.

(** ** C1 *)

(** The single sub-query of the specification's third example does form
    one stream: the reset of the nested call happens before anything
    was collected. *)
Lemma single_cte_one_stream :
  run_toSQL 2 single_cte_program
  = Some (Ok (mkResult
       "WITH active_users AS (SELECT id, name FROM users WHERE status = $1) SELECT * FROM posts WHERE author_id IN ($2, $3, $4)"
       [VStr "active"; VNum 1; VNum 2; VNum 3])).
Proof. vm_compute. reflexivity. Qed.

(** C1: with two sibling sub-queries the stream is broken. The nested
    [compile] call for the second sub-query runs the reset again: its
    predicate is numbered [$1] like the first one's, and the first
    sub-query's parameter ["active"] is gone from the returned list,
    which holds three values for four placeholders. *)
Theorem sibling_ctes_restart_numbering :
  run_toSQL 2 two_ctes_program
  = Some (Ok (mkResult
       "WITH a AS (SELECT * FROM users WHERE status = $1), b AS (SELECT * FROM posts WHERE published = $1) SELECT * FROM comments WHERE id IN ($2, $3)"
       [VBool true; VNum 1; VNum 2]))
  /\ fst (compile two_ctes_example new_SQLCompiler)
     = Ok (mkResult
         "WITH a AS (SELECT * FROM users WHERE status = $1), b AS (SELECT * FROM posts WHERE published = $1) SELECT * FROM comments WHERE id IN ($2, $3)"
         [VBool true; VNum 1; VNum 2]).
Proof. split; vm_compute; reflexivity. Qed.

(* ====================================================================== *)
(** * The builder *)
(* ====================================================================== *)

Lemma relates_spec (cur tbl : string) (r : Relation) :
  relates cur tbl r = true
  <-> (from r = cur /\ to r = tbl) \/ (to r = cur /\ from r = tbl).
Proof.
  unfold relates.
  rewrite orb_true_iff, !andb_true_iff, !String.eqb_eq. reflexivity.
Qed.

Lemma find_none_iff {A} (f : A -> bool) (l : list A) :
  List.find f l = None <-> (forall x, In x l -> f x = false).
Proof.
  split; [apply find_none |].
  induction l as [|x l IH]; intros H; [reflexivity |].
  cbn. rewrite (H x (or_introl eq_refl)). apply IH.
  intros y Hy. apply H. now right.
Qed.


Lemma compileJoins_in_order (js : list JoinNode) (acc : string) :
  compileJoins acc js = acc ++ joinsText js.
Proof.
  revert acc. induction js as [|j js IH]; intros acc.
  - cbn. now rewrite append_empty_r.
  - change (compileJoins acc (j :: js)) with (compileJoins (compileJoin acc j) js).
    rewrite IH. change (compileJoin acc j) with (acc ++ joinText j).
    now rewrite append_assoc.
Qed.


Lemma stageJoins_in_order {Q} (q : QueryNode Q) (acc : string) :
  stageJoins q acc = acc ++ joinsText (default [] (joins q)).
Proof.
  unfold stageJoins. destruct (joins q) as [[|j js]|]; cbn [nonEmpty default].
  - now rewrite append_empty_r.
  - apply compileJoins_in_order.
  - now rewrite append_empty_r.
Qed.


(** ** C6 *)

(** C6: when the builder's relation list holds no relation between the
    builder's own table and the requested one, in either direction,
    the [join] call itself throws (an [Error] whose message names the
    two tables is this code's RelationNotFound), and the store it leaves
    is the store it was given: no join clause was appended and nothing
    else changed. *)
Theorem join_without_relation_throws (this : QueryBuilder.t) (h : Store)
    (o : QueryNode nat) (tbl : string) (kind : JoinType) :
  h !! QueryBuilder.ast this = Some o ->
  (forall r, In r (QueryBuilder.relations this) ->
     ~ (from r = table o /\ to r = tbl) /\ ~ (from r = tbl /\ to r = table o)) ->
  QueryBuilder.join tbl kind this h
  = (Throw (Error ("No relation defined between " ++ table o ++ " and " ++ tbl)), h).
Proof.
  intros Ho Hnone. unfold QueryBuilder.join. rewrite Ho.
  assert (List.find (relates (table o) tbl) (QueryBuilder.relations this) = None) as ->;
    [| reflexivity].
  apply find_none_iff. intros r Hr.
  destruct (relates (table o) tbl r) eqn:E; [| reflexivity].
  apply relates_spec in E. destruct (Hnone r Hr) as [H1 H2]. tauto.
Qed.

Lemma join_without_relation_throws_witness :
  QueryBuilder.join "orders" INNER (QueryBuilder.mk 0 test_relations)
                    {[0 := emptyQuery "users"]}
  = (Throw (Error "No relation defined between users and orders"),
     {[0 := emptyQuery "users"]}).
Proof.
  apply (join_without_relation_throws (QueryBuilder.mk 0 test_relations)
           {[0 := emptyQuery "users"]} (emptyQuery "users") "orders" INNER).
  - reflexivity.
  - intros r [<- | [<- | [<- | []]]]; split; intros [? ?]; discriminate.
Defined.

(** ** C5 *)

Lemma call_is_update (m : Mutation) (s : QueryBuilder.t) (h : Store) :
  call m s h = (Ok s, alter (after_call m) (QueryBuilder.ast s) h).
Proof. destruct m; reflexivity. Qed.

(** No snapshot is taken: after [b.with('active_users', s)], a
    later [s.limit(5)] changes the statement [b] compiles to, and the
    tree read from [b]'s model. *)
Lemma with_is_not_a_snapshot :
  match bound_program ∅ with
  | (Ok (s, b), h1) =>
      let h2 := snd (QueryBuilder.limit (Int 5) s h1) in
      QueryBuilder.toSQL 2 b h1
      = Some (Ok (mkResult
          "WITH active_users AS (SELECT id, name FROM users WHERE status = $1) SELECT * FROM posts"
          [VStr "active"]))
      /\ QueryBuilder.toSQL 2 b h2
         = Some (Ok (mkResult
             "WITH active_users AS (SELECT id, name FROM users WHERE status = $1 LIMIT 5) SELECT * FROM posts"
             [VStr "active"]))
      /\ reify 2 h2 (QueryBuilder.ast b) <> reify 2 h1 (QueryBuilder.ast b)
  | _ => False
  end.
Proof.
  vm_compute. repeat split. discriminate.
Qed.

(** C5 (amended): [with(name, s)] stores in [b]'s model the reference of
    [s]'s model and copies nothing: no object is created, [s]'s model is
    untouched, and [b]'s binding list gains one entry holding [s]'s
    address. A later [where], [select] or [limit] call on [s] leaves
    [b]'s own object as it was and updates the object at [s]'s address,
    so the sub-query that a later [compile] of [b] reads under [name] is
    the model of [s] as it is then, changes included. (The two builders
    are distinct.) *)
Theorem with_binds_by_reference (b s : QueryBuilder.t) (h : Store)
    (ob os : QueryNode nat) (nm : string) (m : Mutation) :
  QueryBuilder.ast b <> QueryBuilder.ast s ->
  h !! QueryBuilder.ast b = Some ob ->
  h !! QueryBuilder.ast s = Some os ->
  let h1 := snd (QueryBuilder.with_ nm s b h) in
  let h2 := snd (call m s h1) in
  dom h1 = dom h
  /\ h1 !! QueryBuilder.ast s = Some os
  /\ h1 !! QueryBuilder.ast b
     = Some (set_with (Some (default [] (with_ ob)
                             ++ [mkCTENode nm (QueryBuilder.ast s)])%list) ob)
  /\ h2 !! QueryBuilder.ast b = h1 !! QueryBuilder.ast b
  /\ h2 !! QueryBuilder.ast s = Some (after_call m os)
  /\ (forall fuel tb,
        reify (S fuel) h2 (QueryBuilder.ast b) = Some tb ->
        exists ts,
          reify fuel h2 (QueryBuilder.ast s) = Some ts
          /\ last (default [] (with_ (node_of tb))) = Some (mkCTENode nm ts)).
Proof.
  intros Hne Hb Hs h1 h2.
  assert (E2 : h2 = alter (after_call m) (QueryBuilder.ast s) h1)
    by (subst h2; now rewrite call_is_update).
  assert (E1 : h1 = alter (fun o => set_with (Some (default [] (with_ o)
                       ++ [mkCTENode nm (QueryBuilder.ast s)])%list) o)
                     (QueryBuilder.ast b) h) by reflexivity.
  clearbody h2. clearbody h1.
  assert (H1s : h1 !! QueryBuilder.ast s = Some os).
  { rewrite E1, lookup_alter_ne by exact Hne. exact Hs. }
  assert (H1b : h1 !! QueryBuilder.ast b
                = Some (set_with (Some (default [] (with_ ob)
                          ++ [mkCTENode nm (QueryBuilder.ast s)])%list) ob)).
  { rewrite E1, lookup_alter_eq, Hb. reflexivity. }
  assert (H2b : h2 !! QueryBuilder.ast b = h1 !! QueryBuilder.ast b).
  { rewrite E2, lookup_alter_ne by congruence. reflexivity. }
  assert (H2s : h2 !! QueryBuilder.ast s = Some (after_call m os)).
  { rewrite E2, lookup_alter_eq, H1s. reflexivity. }
  split; [rewrite E1; apply dom_alter_L |].
  do 4 (split; [assumption |]).
  intros fuel tb Hread. cbn [reify] in Hread.
  rewrite H2b, H1b in Hread. cbn in Hread.
  destruct (mapM _ _) as [ctes|] eqn:Hctes; [| discriminate].
  cbn in Hread. injection Hread as <-. cbn [node_of with_ default]. unfold id.
  apply mapM_Some in Hctes.
  apply Forall2_app_inv_l in Hctes as (k1 & k2 & _ & Hlast & ->).
  apply Forall2_cons_inv_l in Hlast as (y & k3 & Hy & Hnil & ->).
  apply Forall2_nil_inv_l in Hnil as ->.
  cbn in Hy. destruct (reify fuel h2 (QueryBuilder.ast s)) as [ts|]; [| discriminate].
  exists ts. split; [reflexivity |]. cbn in Hy. injection Hy as <-.
  apply last_snoc.
Qed.

Lemma with_binds_by_reference_witness :
  snd (call (CallLimit (Int 5))
         (QueryBuilder.mk 0 test_relations)
         (snd (QueryBuilder.with_ "u" (QueryBuilder.mk 0 test_relations)
                 (QueryBuilder.mk 1 test_relations) two_builders_store)))
    !! 0
  = Some (set_limit (Some (Int 5)) (emptyQuery "users")).
Proof.
  destruct (with_binds_by_reference
              (QueryBuilder.mk 1 test_relations) (QueryBuilder.mk 0 test_relations)
              two_builders_store (emptyQuery "posts") (emptyQuery "users")
              "u" (CallLimit (Int 5)))
    as (_ & _ & _ & _ & H2s & _).
  - cbn. lia.
  - reflexivity.
  - reflexivity.
  - exact H2s.
Defined.


(** ** The join list of a builder's model is always there *)

Lemma joins_present_new (rels : list Relation) (tbl : string) (h : Store) :
  joins_present h -> joins_present (snd (QueryBuilder.new rels tbl h)).
Proof.
  intros Hh a o. cbn. rewrite lookup_insert. case_decide.
  - intros [= <-]. cbn. eauto.
  - apply Hh.
Qed.

Lemma joins_present_alter (f : QueryNode nat -> QueryNode nat) (a : nat) (h : Store) :
  (forall o, is_Some (joins o) -> is_Some (joins (f o))) ->
  joins_present h -> joins_present (alter f a h).
Proof.
  intros Hf Hh a' o'. rewrite lookup_alter. case_decide.
  - subst a'. destruct (h !! a) as [o|] eqn:E; cbn; [| discriminate].
    intros [= <-]. apply Hf. now apply (Hh a).
  - apply Hh.
Qed.

Lemma joins_present_perform (c : BuilderCall) (this : QueryBuilder.t) (h : Store) :
  joins_present h -> joins_present (snd (perform c this h)).
Proof.
  intros Hh.
  destruct c; cbn [perform];
    try (apply joins_present_alter; [| exact Hh]; intros o Ho; exact Ho).
  unfold QueryBuilder.join.
    destruct (h !! QueryBuilder.ast this) as [o|] eqn:E; [| exact Hh].
    destruct (List.find _ _) as [r|]; [| exact Hh].
    cbn [snd]. intros a o'. rewrite lookup_insert. case_decide; [| apply Hh].
    intros [= <-]. cbn [joins set_joins].
    destruct (Hh _ _ E) as [js ->]. cbn. eauto.
Qed.

(* ====================================================================== *)
(** * Placeholders and parameters of a whole statement *)
(* ====================================================================== *)

Lemma compileWhereNodes_rendered (nodes : list WhereNode) (st : CompilerState) :
  compileWhereNodes nodes st = rendered render (traceWhereNodes nodes) st.
Proof.
  destruct nodes as [|n ns]; [reflexivity |].
  unfold compileWhereNodes, traceWhereNodes, rendered, bind.
  rewrite (Array_map_rendered compileWhereNode traceWhereNode).
  - unfold bind. destruct (Array_map traceWhereNode (n :: ns) st) as [[parts|e] st1];
      [| reflexivity].
    cbn [ret]. now rewrite render_Trace_join.
  - apply Forall_forall. intros c _. apply compileWhereNode_rendered.
Qed.

Lemma traceWhereNodes_accounts (nodes : list WhereNode) st tr st' :
  traceWhereNodes nodes st = (Ok tr, st') -> accounts st (holes tr) st'.
Proof.
  destruct nodes as [|n ns]; intros H.
  - inversion H; subst. apply accounts_refl.
  - unfold traceWhereNodes in H.
    apply bind_inv_ok in H as (parts & st1 & Hparts & H). inversion H; subst.
    rewrite holes_Trace_join.
    eapply runs_accounts; [apply Array_map_runs; eassumption |].
    apply Forall_forall. intros c _. apply traceWhereNode_accounts.
Qed.

Lemma traceWhereNodes_scans (nodes : list WhereNode) st tr st' :
  forallb dollar_free_fields nodes = true ->
  traceWhereNodes nodes st = (Ok tr, st') -> scans tr.
Proof.
  intros Hfree. destruct nodes as [|n ns]; intros H.
  - inversion H; subst. apply scans_nil.
  - unfold traceWhereNodes in H.
    apply bind_inv_ok in H as (parts & st1 & Hparts & H). inversion H; subst.
    apply scans_join; [reflexivity |].
    eapply runs_scans; [apply Array_map_runs; eassumption |].
    apply Forall_forall. intros c Hc. apply traceWhereNode_scans.
    rewrite forallb_forall in Hfree. apply Hfree. now apply list_elem_of_In.
Qed.

Lemma traceWhereNodes_returns (nodes : list WhereNode) :
  forallb in_values_are_arrays nodes = true -> returns (traceWhereNodes nodes).
Proof.
  intros Hwf st.
  destruct (compileWhereNodes_returns nodes Hwf st) as (text & st' & Hrun).
  rewrite compileWhereNodes_rendered in Hrun. unfold rendered, bind in Hrun.
  destruct (traceWhereNodes nodes st) as [[tr|e] st1]; [eauto | discriminate].
Qed.

Lemma traceWhereNodes_empty (nodes : list WhereNode) st tr st' :
  nodes = [] -> traceWhereNodes nodes st = (Ok tr, st') -> tr = [].
Proof. intros -> H. now inversion H. Qed.

Lemma nonEmpty_None_default {A} (xs : option (list A)) :
  nonEmpty xs = None -> default [] xs = [].
Proof. destruct xs as [[|x l]|]; cbn; congruence. Qed.

Lemma stageWhere_labelled {Q} (q : QueryNode Q) (acc : string) (st : CompilerState) :
  stageWhere q acc st
  = (let* tr := traceWhereNodes (default [] (where_ q)) in
     ret (acc ++ keyword (where_ q) " WHERE " ++ render tr)) st.
Proof.
  unfold stageWhere, keyword.
  destruct (nonEmpty (where_ q)) as [nodes|] eqn:E.
  - rewrite (nonEmpty_default _ _ E). unfold bind at 1.
    rewrite compileWhereNodes_rendered. unfold rendered, bind.
    destruct (traceWhereNodes nodes st) as [[tr|e] st1]; [| reflexivity].
    cbn [ret]. now rewrite append_assoc.
  - rewrite (nonEmpty_None_default _ E). cbn. now rewrite append_empty_r.
Qed.

Lemma stageHaving_labelled {Q} (q : QueryNode Q) (acc : string) (st : CompilerState) :
  stageHaving q acc st
  = (let* tr := traceWhereNodes (default [] (having q)) in
     ret (acc ++ keyword (having q) " HAVING " ++ render tr)) st.
Proof.
  unfold stageHaving, keyword.
  destruct (nonEmpty (having q)) as [nodes|] eqn:E.
  - rewrite (nonEmpty_default _ _ E). unfold bind at 1.
    rewrite compileWhereNodes_rendered. unfold rendered, bind.
    destruct (traceWhereNodes nodes st) as [[tr|e] st1]; [| reflexivity].
    cbn [ret]. now rewrite append_assoc.
  - rewrite (nonEmpty_None_default _ E). cbn. now rewrite append_empty_r.
Qed.

Lemma stageGroupBy_split {Q} (q : QueryNode Q) (acc : string) :
  stageGroupBy q acc = acc ++ stageGroupBy q "".
Proof.
  unfold stageGroupBy. destruct (nonEmpty (groupBy q)); [reflexivity |].
  now rewrite append_empty_r.
Qed.

Lemma stageTail_split {Q} (q : QueryNode Q) (acc : string) :
  stageOffset q (stageLimit q (stageOrderBy q acc))
  = acc ++ stageOffset q (stageLimit q (stageOrderBy q "")).
Proof.
  unfold stageOffset, stageLimit, stageOrderBy.
  destruct (offset q), (limit q), (nonEmpty (orderBy q));
    cbn [append]; rewrite ?append_assoc, ?append_empty_r; reflexivity.
Qed.

Lemma compile_without_ctes (q : QueryNode QueryAST) (st : CompilerState) :
  nonEmpty (with_ q) = None ->
  compile (Query q) st
  = (let* trW := traceWhereNodes (default [] (where_ q)) in
     let* trH := traceWhereNodes (default [] (having q)) in
     fun s => (Ok (mkResult (statementText q trW trH) (params s)), s))
      new_SQLCompiler.
Proof.
  intros Hno. rewrite compile_stages.
  assert (stageWith q "" = ret "") as Hw
    by (unfold stageWith; destruct (with_ q) as [[|c cs]|]; [| discriminate |];
        reflexivity).
  rewrite Hw. unfold bind at 1 2, reset, ret. unfold compileBody, bind at 1.
  change (mkState [] 1) with new_SQLCompiler.
  rewrite stageWhere_labelled. unfold bind at 1 3.
  destruct (traceWhereNodes (default [] (where_ q)) new_SQLCompiler)
    as [[trW|e] st1]; [| reflexivity].
  cbn [ret]. unfold bind at 1. rewrite stageHaving_labelled. unfold bind.
  destruct (traceWhereNodes (default [] (having q)) st1) as [[trH|e] st2];
    [| reflexivity].
  cbn [ret]. unfold stageReturn, statementText, headText, groupText, tailText.
  do 2 f_equal. f_equal.
  rewrite stageTail_split, stageGroupBy_split. now rewrite !append_assoc.
Qed.

Lemma placeholders_free (s : string) : dollar_free s = true -> placeholders s = [].
Proof.
  intros H. rewrite <- (append_empty_r s). now rewrite placeholders_free_app.
Qed.

Lemma starts_without_digit_spaced (s k : string) :
  spaced s = true -> starts_without_digit k = true ->
  starts_without_digit (s ++ k) = true.
Proof.
  destruct s as [|c s]; [now intros |].
  cbn [spaced]. intros Hc%Ascii.eqb_eq _. now subst c.
Qed.

Lemma dollar_free_Array_join (sep : string) (l : list string) :
  dollar_free sep = true -> forallb dollar_free l = true ->
  dollar_free (Array_join sep l) = true.
Proof.
  intros Hsep. unfold Array_join.
  induction l as [|x [|y l] IH]; intros Hl; [reflexivity | |].
  - cbn in Hl. now rewrite andb_true_r in Hl.
  - cbn [forallb] in Hl. apply andb_true_iff in Hl as [Hx Hl].
    change (String.concat sep (x :: y :: l))
      with (x ++ sep ++ String.concat sep (y :: l)).
    rewrite !dollar_free_app, Hx, Hsep. now apply IH.
Qed.

(** The printer on the ends of its range and around zero. *)
Lemma Number_toString_examples :
  Number_toString (Int 0) = "0"
  /\ Number_toString (Int 10) = "10"
  /\ Number_toString (Int (-5)) = "-5"
  /\ Number_toString (Int 9007199254740991) = "9007199254740991"
  /\ Number_toString (Int (-9007199254740991)) = "-9007199254740991".
Proof. repeat split; vm_compute; reflexivity. Qed.

Lemma dollar_free_Number_toString (n : SafeInteger) :
  dollar_free (Number_toString n) = true.
Proof.
  unfold Number_toString, NilEmpty.string_of_int.
  destruct (Z.to_int (int_value n)); [| cbn [dollar_free]; cbn]; apply dollar_free_digits.
Qed.

Lemma keyword_cases {A} (xs : option (list A)) (kw : string) :
  (keyword xs kw = "" /\ default [] xs = []) \/ (keyword xs kw = kw).
Proof.
  unfold keyword. destruct xs as [[|x l]|]; cbn; auto.
Qed.

Section NamesFree.
Context {Q : Type} (q : QueryNode Q).
Hypothesis Hnames : names_dollar_free q = true.

Lemma names_dollar_free_parts :
  dollar_free (table q) = true
  /\ forallb dollar_free (default [] (columns q)) = true
  /\ forallb (fun j => dollar_free (join_table j) && dollar_free (left (on j))
                       && dollar_free (right (on j))) (default [] (joins q)) = true
  /\ forallb dollar_free (default [] (groupBy q)) = true
  /\ forallb (fun o => dollar_free (column o)) (default [] (orderBy q)) = true
  /\ forallb dollar_free_fields (default [] (where_ q)) = true
  /\ forallb dollar_free_fields (default [] (having q)) = true.
Proof.
  unfold names_dollar_free in Hnames.
  repeat (apply andb_true_iff in Hnames as [Hnames ?]). auto 10.
Qed.

Lemma dollar_free_compileColumns : dollar_free (compileColumns (columns q)) = true.
Proof.
  destruct names_dollar_free_parts as (_ & Hc & _).
  unfold compileColumns. destruct (columns q) as [cs|]; [| reflexivity].
  cbn zeta. destruct (String.eqb _ ""); [reflexivity |].
  now apply dollar_free_Array_join.
Qed.

Lemma dollar_free_joinsText : dollar_free (joinsText (default [] (joins q))) = true.
Proof.
  destruct names_dollar_free_parts as (_ & _ & Hj & _).
  induction (default [] (joins q)) as [|j js IH]; [reflexivity |].
  cbn [forallb] in Hj. apply andb_true_iff in Hj as [Hj1 Hjs].
  apply andb_true_iff in Hj1 as [Hj1 Hr]. apply andb_true_iff in Hj1 as [Hjt Hl].
  cbn [joinsText fold_right]. fold (joinsText js).
  unfold joinText. rewrite !dollar_free_app, Hjt, Hl, Hr, (IH Hjs).
  now destruct (join_type j).
Qed.

Lemma dollar_free_headText : dollar_free (headText q) = true.
Proof.
  destruct names_dollar_free_parts as (Ht & _).
  unfold headText. rewrite stageJoins_in_order. unfold stageSelect.
  rewrite !dollar_free_app, Ht, dollar_free_compileColumns, dollar_free_joinsText.
  reflexivity.
Qed.

Lemma dollar_free_groupText : dollar_free (groupText q) = true.
Proof.
  destruct names_dollar_free_parts as (_ & _ & _ & Hg & _).
  unfold groupText, stageGroupBy.
  destruct (nonEmpty (groupBy q)) as [gs|] eqn:E; [| reflexivity].
  rewrite (nonEmpty_default _ _ E) in Hg.
  rewrite !dollar_free_app. now rewrite dollar_free_Array_join.
Qed.

Lemma dollar_free_tailText : dollar_free (tailText q) = true.
Proof.
  destruct names_dollar_free_parts as (_ & _ & _ & _ & Ho & _).
  assert (Hord : forall os, forallb (fun o => dollar_free (column o)) os = true ->
                 dollar_free (Array_join ", " (map compileOrderBy os)) = true).
  { intros os Hos. apply dollar_free_Array_join; [reflexivity |].
    rewrite forallb_forall in Hos |- *. intros s [o [<- Hin]]%in_map_iff.
    unfold compileOrderBy. rewrite !dollar_free_app, (Hos o Hin).
    now destruct (direction o). }
  unfold tailText, stageOffset, stageLimit, stageOrderBy.
  destruct (nonEmpty (orderBy q)) as [os|] eqn:E;
    [rewrite (nonEmpty_default _ _ E) in Ho |];
    destruct (limit q), (offset q);
    rewrite ?dollar_free_app, ?dollar_free_Number_toString, ?Hord by assumption;
    reflexivity.
Qed.
End NamesFree.

Lemma spaced_groupText {Q} (q : QueryNode Q) : spaced (groupText q) = true.
Proof. unfold groupText, stageGroupBy. now destruct (nonEmpty (groupBy q)). Qed.

Lemma spaced_tailText {Q} (q : QueryNode Q) : spaced (tailText q) = true.
Proof.
  unfold tailText, stageOffset, stageLimit, stageOrderBy.
  now destruct (nonEmpty (orderBy q)), (limit q), (offset q).
Qed.

(** Scanning a statement without sub-queries finds the placeholders of
    its WHERE list followed by those of its HAVING list. *)
Lemma statementText_placeholders {Q} (q : QueryNode Q) (trW trH : list Piece) :
  names_dollar_free q = true ->
  scans trW -> scans trH ->
  (default [] (having q) = [] -> trH = []) ->
  placeholders (statementText q trW trH)
  = (map fst (holes trW) ++ map fst (holes trH))%list.
Proof.
  intros Hnames HW HH Hempty. unfold statementText.
  assert (HkW : dollar_free (keyword (where_ q) " WHERE ") = true)
    by (destruct (keyword_cases (where_ q) " WHERE ") as [[-> _] | ->]; reflexivity).
  assert (HkH : dollar_free (keyword (having q) " HAVING ") = true)
    by (destruct (keyword_cases (having q) " HAVING ") as [[-> _] | ->]; reflexivity).
  assert (Htail : starts_without_digit (tailText q) = true).
  { pose proof (starts_without_digit_spaced (tailText q) "" (spaced_tailText q) eq_refl).
    now rewrite append_empty_r in *. }
  rewrite placeholders_free_app by now apply dollar_free_headText.
  rewrite placeholders_free_app by exact HkW.
  rewrite HW.
  - rewrite placeholders_free_app by now apply dollar_free_groupText.
    rewrite placeholders_free_app by exact HkH.
    rewrite HH by exact Htail.
    rewrite (placeholders_free (tailText q)) by now apply dollar_free_tailText.
    now rewrite app_nil_r.
  - apply starts_without_digit_spaced; [apply spaced_groupText |].
    destruct (keyword_cases (having q) " HAVING ") as [[-> Hnil] | ->];
      [| reflexivity].
    rewrite (Hempty Hnil). exact Htail.
Qed.

(** ** Placeholders and parameters without sub-queries *)

(** X21: (1) Take a predicate tree whose [IN] conditions all carry arrays
    (so that compilation returns), and compile it from compiler fields
    as [compile] has them after its reset or after earlier predicates
    (next number = values collected + 1). Then the emitted text is the
    rendering of pieces in which each placeholder is labelled with its
    number and the value pushed with it, and: the new parameters are
    appended to the old; the labelled placeholders, in text order, are
    exactly the new parameters paired with consecutive numbers starting
    at the counter (as many placeholders as new parameters, none reused
    or skipped); the value bound at [$N] is element [N-1] of the
    parameter list; the counter stays in step; and if no field name
    contains a dollar sign, scanning the emitted text for [$N] finds
    exactly those numbers.
    (2) For a whole statement without sub-queries, compiled on any
    compiler object: the placeholders of its WHERE list followed by
    those of its HAVING list are the returned parameters paired with
    1, 2, ...; the value bound at [$N] is element [N-1] of the returned
    list; and, no name in the statement containing a dollar sign, the
    [$N] read from the emitted SQL text are exactly 1 up to the length
    of the returned parameter list. *)
Theorem placeholders_match_params :
  (forall (node : WhereNode) (st : CompilerState),
     in_values_are_arrays node = true ->
     counter_in_step st ->
     exists (text : string) (tr : list Piece) (st' : CompilerState)
            (new : list Value),
       compileWhereNode node st = (Ok text, st')
       /\ traceWhereNode node st = (Ok tr, st')
       /\ render tr = text
       /\ params st' = (params st ++ new)%list
       /\ counter_in_step st'
       /\ holes tr = combine (seq (paramIndex st) (length new)) new
       /\ Forall (fun h => params st' !! (fst h - 1) = Some (snd h)) (holes tr)
       /\ (dollar_free_fields node = true ->
           placeholders text = seq (paramIndex st) (length new)))
  /\ (forall (q : QueryNode QueryAST) (other : CompilerState),
       nonEmpty (with_ q) = None ->
       query_in_values_are_arrays (Query q) = true ->
       exists (r : CompileResult) (trW trH : list Piece) (stW stH : CompilerState),
         compile (Query q) other = (Ok r, stH)
         /\ traceWhereNodes (default [] (where_ q)) new_SQLCompiler = (Ok trW, stW)
         /\ traceWhereNodes (default [] (having q)) stW = (Ok trH, stH)
         /\ sql r = statementText q trW trH
         /\ holes (trW ++ trH)
            = combine (seq 1 (length (result_params r))) (result_params r)
         /\ Forall (fun h => result_params r !! (fst h - 1) = Some (snd h))
                   (holes (trW ++ trH))
         /\ (names_dollar_free q = true ->
             placeholders (sql r) = seq 1 (length (result_params r)))).
Proof.
  split; [intros node st; apply compileWhereNode_labelled |].
  intros q other Hno Hwf. cbn [query_in_values_are_arrays] in Hwf.
  apply andb_true_iff in Hwf as [[Hw Hh]%andb_true_iff _].
  destruct (traceWhereNodes_returns _ Hw new_SQLCompiler) as (trW & stW & HtW).
  destruct (traceWhereNodes_returns _ Hh stW) as (trH & stH & HtH).
  exists (mkResult (statementText q trW trH) (params stH)), trW, trH, stW, stH.
  pose proof (accounts_trans _ _ _ _ _ (traceWhereNodes_accounts _ _ _ _ HtW)
                (traceWhereNodes_accounts _ _ _ _ HtH)) as (Hp & Hord & _).
  rewrite <- holes_app in Hp, Hord. cbn [params new_SQLCompiler app paramIndex] in Hp, Hord.
  cbn [sql result_params]. rewrite Hp, length_map.
  split; [| split; [exact HtW | split; [exact HtH | split; [reflexivity |]]]].
  { rewrite compile_without_ctes by exact Hno. unfold bind.
    now rewrite HtW, HtH, Hp. }
  split; [rewrite <- Hord; symmetry; apply combine_fst_snd |].
  split; [apply (holes_bound [] _ 1 Hord eq_refl) |].
  intros Hnames.
  destruct (names_dollar_free_parts q Hnames) as (_ & _ & _ & _ & _ & HfW & HfH).
  rewrite statementText_placeholders.
  - now rewrite <- map_app, <- holes_app.
  - exact Hnames.
  - exact (traceWhereNodes_scans _ _ _ _ HfW HtW).
  - exact (traceWhereNodes_scans _ _ _ _ HfH HtH).
  - intros Hnil. exact (traceWhereNodes_empty _ _ _ _ Hnil HtH).
Qed.

Lemma placeholders_match_params_witness :
  exists (r : CompileResult) (st' : CompilerState),
    compile where_having_example new_SQLCompiler = (Ok r, st')
    /\ placeholders (sql r) = seq 1 (length (result_params r)).
Proof.
  destruct (proj2 placeholders_match_params (node_of where_having_example)
              new_SQLCompiler eq_refl eq_refl)
    as (r & trW & trH & stW & stH & Hrun & _ & _ & _ & _ & _ & Hscan).
  exists r, stH. split; [exact Hrun | exact (Hscan eq_refl)].
Defined.

(* ====================================================================== *)
(** * When compilation throws *)
(* ====================================================================== *)

Lemma decided_by_ret {A} (a : A) : decided_by (ret a) true.
Proof. intros st. reflexivity. Qed.

Lemma decided_by_throw {A} : decided_by (@throw CompilerState A TypeError) false.
Proof. intros st. cbn. auto. Qed.

Lemma decided_by_bind {A B} (m : M A) (k : A -> M B) (b1 b2 : bool) :
  decided_by m b1 -> (forall a, decided_by (k a) b2) ->
  decided_by (bind m k) (b1 && b2).
Proof.
  intros Hm Hk st. specialize (Hm st). unfold bind.
  destruct (m st) as [[a|e] st1]; cbn [fst] in *.
  - subst b1. apply Hk.
  - destruct Hm as [-> ->]. auto.
Qed.

Lemma decided_by_eq {A} (m : M A) (b b' : bool) :
  decided_by m b -> b = b' -> decided_by m b'.
Proof. now intros H <-. Qed.

Lemma decided_by_Array_map {A B} (f : A -> M B) (g : A -> bool) (xs : list A) :
  Forall (fun x => decided_by (f x) (g x)) xs ->
  decided_by (Array_map f xs) (forallb g xs).
Proof.
  induction 1 as [|x xs Hx _ IH]; [apply decided_by_ret |].
  cbn [Array_map forallb]. apply decided_by_bind; [exact Hx | intros y].
  eapply decided_by_eq;
    [apply decided_by_bind; [exact IH | intros ys; apply decided_by_ret] |].
  apply andb_true_r.
Qed.

Lemma decided_by_placeholder (v : Value) : decided_by (placeholder v) true.
Proof. intros st. reflexivity. Qed.

Lemma decided_by_compileWhereNode (node : WhereNode) :
  decided_by (compileWhereNode node) (in_values_are_arrays node).
Proof.
  induction node as [ty f o v ch IH] using WhereNode_tree_ind.
  assert (Hgroup : forall (w : list string -> string) cs,
             ch = Some cs ->
             decided_by (let* parts := Array_map compileWhereNode cs in ret (w parts))
                        (forallb in_values_are_arrays cs)).
  { intros w cs ->. cbn in IH.
    eapply decided_by_eq;
      [apply decided_by_bind;
         [apply decided_by_Array_map; exact IH | intros; apply decided_by_ret] |].
    apply andb_true_r. }
  destruct ty; cbn [compileWhereNode in_values_are_arrays node_type node_children
                    node_op node_value node_field].
  - assert (Hleaf : decided_by
              (let* p := placeholder v in
               ret (template f ++ " " ++ template (Operator_text <$> o) ++ " " ++ p))
              true).
    { eapply decided_by_eq;
        [apply decided_by_bind;
           [apply decided_by_placeholder | intros; apply decided_by_ret] |].
      reflexivity. }
    destruct o as [[]|]; try exact Hleaf; try apply decided_by_ret.
    destruct v; try apply decided_by_throw.
    eapply decided_by_eq;
      [apply decided_by_bind with (b1 := forallb (fun _ => true) elems);
         [apply decided_by_Array_map, Forall_forall;
            intros; apply decided_by_placeholder
         | intros; apply decided_by_ret] |].
    rewrite andb_true_r. apply forallb_forall. reflexivity.
  - destruct ch as [cs|]; [now apply (Hgroup (fun parts => "(" ++ Array_join " AND " parts ++ ")")) | apply decided_by_ret].
  - destruct ch as [cs|]; [now apply (Hgroup (fun parts => "(" ++ Array_join " OR " parts ++ ")")) | apply decided_by_ret].
  - destruct ch as [cs|]; [now apply (Hgroup (fun parts => "NOT (" ++ Array_join " " parts ++ ")")) | apply decided_by_ret].
Qed.

(** X2: compiling a predicate tree returns exactly when every [IN]
    condition in it (outside the ignored children of condition nodes)
    carries an array, and otherwise throws a [TypeError] and nothing
    else. *)
Theorem compileWhereNode_throws_only_on_bad_in (node : WhereNode)
    (st : CompilerState) :
  match fst (compileWhereNode node st) with
  | Ok _ => in_values_are_arrays node = true
  | Throw e => e = TypeError /\ in_values_are_arrays node = false
  end.
Proof. apply decided_by_compileWhereNode. Qed.

Lemma decided_by_compileWhereNodes (nodes : list WhereNode) :
  decided_by (compileWhereNodes nodes) (forallb in_values_are_arrays nodes).
Proof.
  destruct nodes as [|n ns]; [apply decided_by_ret |].
  unfold compileWhereNodes.
  eapply decided_by_eq;
    [apply decided_by_bind;
       [apply decided_by_Array_map, Forall_forall; intros;
          apply decided_by_compileWhereNode
       | intros; apply decided_by_ret] |].
  apply andb_true_r.
Qed.

Lemma decided_by_stageWhere {Q} (q : QueryNode Q) (acc : string) :
  decided_by (stageWhere q acc) (forallb in_values_are_arrays (default [] (where_ q))).
Proof.
  unfold stageWhere. destruct (nonEmpty (where_ q)) as [nodes|] eqn:E.
  - rewrite (nonEmpty_default _ _ E).
    eapply decided_by_eq;
      [apply decided_by_bind;
         [apply decided_by_compileWhereNodes | intros; apply decided_by_ret] |].
    apply andb_true_r.
  - rewrite (nonEmpty_None_default _ E). apply decided_by_ret.
Qed.

Lemma decided_by_stageHaving {Q} (q : QueryNode Q) (acc : string) :
  decided_by (stageHaving q acc) (forallb in_values_are_arrays (default [] (having q))).
Proof.
  unfold stageHaving. destruct (nonEmpty (having q)) as [nodes|] eqn:E.
  - rewrite (nonEmpty_default _ _ E).
    eapply decided_by_eq;
      [apply decided_by_bind;
         [apply decided_by_compileWhereNodes | intros; apply decided_by_ret] |].
    apply andb_true_r.
  - rewrite (nonEmpty_None_default _ E). apply decided_by_ret.
Qed.

Lemma decided_by_compile (ast : QueryAST) :
  decided_by (compile ast) (query_in_values_are_arrays ast).
Proof.
  induction ast as [q IH] using QueryAST_tree_ind.
  rewrite compile_stages. cbn [query_in_values_are_arrays].
  set (fw := forallb in_values_are_arrays (default [] (where_ q))).
  set (fh := forallb in_values_are_arrays (default [] (having q))).
  set (fc := match with_ q with
             | Some cs => forallb (fun c => query_in_values_are_arrays (query c)) cs
             | None => true
             end).
  apply decided_by_eq with (b := true && (fc && (fw && (fh && true)))).
  2: { rewrite andb_true_r. cbn. now rewrite andb_comm. }
  apply decided_by_bind; [intros st; reflexivity | intros _].
  apply decided_by_bind.
  - unfold stageWith, fc. destruct (with_ q) as [[|c cs]|]; try apply decided_by_ret.
    eapply decided_by_eq;
      [apply decided_by_bind;
         [apply decided_by_Array_map with
            (g := fun c => query_in_values_are_arrays (query c))
         | intros; apply decided_by_ret] |];
      [| apply andb_true_r].
    cbn [default] in IH. rewrite Forall_forall in IH |- *. intros x Hx.
    unfold compileCTE. eapply decided_by_eq;
      [apply decided_by_bind; [apply IH; exact Hx | intros [s ps]; apply decided_by_ret] |].
    apply andb_true_r.
  - intros pre. unfold compileBody.
    apply decided_by_bind; [apply decided_by_stageWhere | intros s1].
    apply decided_by_bind; [apply decided_by_stageHaving | intros s2].
    intros st. reflexivity.
Qed.

(** X3: on a statement whose sub-queries form a finite tree (no model
    bound into itself, directly or through other models), [compile]
    returns exactly when every [IN] condition of the statement's WHERE
    and HAVING lists, those of its sub-queries included, carries an
    array; otherwise it throws a [TypeError], and on such a statement
    no other error. For a builder this reads: whenever the object graph
    below its model can be read as a tree within the nesting depth
    followed, [toSQL] returns or throws a [TypeError] by that test on
    the tree; a graph that cannot be read so (one with a cycle, at any
    depth) is not covered, [toSQL] has no result in the model there. *)
Theorem compile_throws_only_on_bad_in :
  (forall (ast : QueryAST) (st : CompilerState),
     match fst (compile ast st) with
     | Ok _ => query_in_values_are_arrays ast = true
     | Throw e => e = TypeError /\ query_in_values_are_arrays ast = false
     end)
  /\ (forall (fuel : nat) (b : QueryBuilder.t) (h : Store),
        match QueryBuilder.toSQL fuel b h with
        | Some (Ok _) =>
            exists tree, reify fuel h (QueryBuilder.ast b) = Some tree
                         /\ query_in_values_are_arrays tree = true
        | Some (Throw e) =>
            e = TypeError
            /\ exists tree, reify fuel h (QueryBuilder.ast b) = Some tree
                            /\ query_in_values_are_arrays tree = false
        | None => reify fuel h (QueryBuilder.ast b) = None
        end).
Proof.
  split; [intros ast st; apply decided_by_compile |].
  intros fuel b h. unfold QueryBuilder.toSQL.
  destruct (reify fuel h (QueryBuilder.ast b)) as [tree|]; [| reflexivity].
  cbn [mbind option_bind].
  pose proof (decided_by_compile tree new_SQLCompiler) as H.
  destruct (fst (compile tree new_SQLCompiler)) as [r|e].
  - exists tree. auto.
  - destruct H as [-> H]. split; [reflexivity |]. exists tree. auto.
Qed.

(** X4: a predicate tree put together from calls of the condition
    factory never makes the compiler throw: whatever the compiler
    fields, [compileWhereNode] returns a text. *)
Theorem factory_built_compiles (node : WhereNode) :
  factory_built node -> returns (compileWhereNode node).
Proof.
  intros Hfb. apply compileWhereNode_returns.
  induction node as [ty f o v ch IH] using WhereNode_tree_ind.
  assert (Hall : forall cs, ch = Some cs -> Forall factory_built cs ->
                 forallb in_values_are_arrays cs = true).
  { intros cs -> Hcs. cbn in IH. apply forallb_forall. intros c Hc.
    rewrite Forall_forall in IH, Hcs. apply list_elem_of_In in Hc. auto. }
  inversion Hfb; subst; try reflexivity; cbn.
  - now apply Hall.
  - now apply Hall.
  - rewrite andb_true_r. cbn in IH. apply Forall_cons in IH as [IH _]. auto.
Qed.

Lemma factory_built_compiles_witness :
  exists text st',
    compileWhereNode spec_example new_SQLCompiler = (Ok text, st').
Proof.
  apply (factory_built_compiles spec_example).
  unfold spec_example.
  repeat (constructor; repeat constructor).
Defined.

(* ====================================================================== *)
(** * The parameters a predicate tree binds *)
(* ====================================================================== *)

Lemma pushes_ret {A} (a : A) : pushes (ret a) [].
Proof.
  intros [ps i]. exists a. cbn. now rewrite app_nil_r, Nat.add_0_r.
Qed.

Lemma pushes_bind {A B} (m : M A) (k : A -> M B) (v1 v2 : list Value) :
  pushes m v1 -> (forall a, pushes (k a) v2) -> pushes (bind m k) (v1 ++ v2).
Proof.
  intros Hm Hk st. destruct (Hm st) as [a Ha].
  destruct (Hk a (mkState (params st ++ v1) (paramIndex st + length v1))) as [b Hb].
  exists b. rewrite (bind_ok _ _ _ _ _ Ha), Hb. cbn [params paramIndex].
  rewrite length_app, <- app_assoc. do 2 f_equal. lia.
Qed.

Lemma pushes_eq {A} (m : M A) (v v' : list Value) :
  pushes m v -> v = v' -> pushes m v'.
Proof. now intros H <-. Qed.

Lemma pushes_Array_map {A B} (f : A -> M B) (g : A -> list Value) (xs : list A) :
  Forall (fun x => pushes (f x) (g x)) xs ->
  pushes (Array_map f xs) (flat_map g xs).
Proof.
  induction 1 as [|x xs Hx _ IH]; [apply pushes_ret |].
  cbn [Array_map flat_map]. apply pushes_bind; [exact Hx | intros y].
  eapply pushes_eq;
    [apply pushes_bind; [exact IH | intros ys; apply pushes_ret] |].
  apply app_nil_r.
Qed.

Lemma pushes_placeholder (v : Value) : pushes (placeholder v) [v].
Proof.
  intros st. eexists. unfold placeholder. cbn [length]. do 3 f_equal. lia.
Qed.

Lemma flat_map_singleton {A} (l : list A) : flat_map (fun x => [x]) l = l.
Proof. induction l as [|x l IH]; [reflexivity | cbn; now rewrite IH]. Qed.

Lemma compileWhereNode_pushes (node : WhereNode) :
  in_values_are_arrays node = true ->
  pushes (compileWhereNode node) (bound_values node).
Proof.
  induction node as [ty f o v ch IH] using WhereNode_tree_ind.
  intros Hwf.
  assert (Hgroup : forall (w : list string -> string) cs,
             ch = Some cs -> forallb in_values_are_arrays cs = true ->
             pushes (let* parts := Array_map compileWhereNode cs in ret (w parts))
                    (flat_map bound_values cs)).
  { intros w cs -> Hcs. cbn in IH.
    eapply pushes_eq;
      [apply pushes_bind; [apply pushes_Array_map | intros; apply pushes_ret] |];
      [| apply app_nil_r].
    rewrite Forall_forall in IH |- *. intros c Hc. apply IH; [exact Hc |].
    rewrite forallb_forall in Hcs. apply Hcs. now apply list_elem_of_In. }
  destruct ty; cbn [compileWhereNode bound_values in_values_are_arrays node_type
                    node_children node_op node_value node_field] in *.
  - assert (Hleaf : pushes
              (let* p := placeholder v in
               ret (template f ++ " " ++ template (Operator_text <$> o) ++ " " ++ p))
              [v]).
    { eapply pushes_eq;
        [apply pushes_bind; [apply pushes_placeholder | intros; apply pushes_ret] |].
      reflexivity. }
    destruct o as [[]|]; try exact Hleaf; try apply pushes_ret.
    destruct v; try discriminate.
    eapply pushes_eq;
      [apply pushes_bind;
         [apply pushes_Array_map with (g := fun v => [v]), Forall_forall;
            intros; apply pushes_placeholder
         | intros; apply pushes_ret] |].
    rewrite app_nil_r. apply flat_map_singleton.
  - destruct ch as [cs|]; [| apply pushes_ret].
    apply (Hgroup (fun parts => "(" ++ Array_join " AND " parts ++ ")")); [reflexivity | exact Hwf].
  - destruct ch as [cs|]; [| apply pushes_ret].
    apply (Hgroup (fun parts => "(" ++ Array_join " OR " parts ++ ")")); [reflexivity | exact Hwf].
  - destruct ch as [cs|]; [| apply pushes_ret].
    apply (Hgroup (fun parts => "NOT (" ++ Array_join " " parts ++ ")")); [reflexivity | exact Hwf].
Qed.

(** X1: compiling a predicate tree whose [IN] values are arrays appends
    to [params] exactly the values the tree binds, in the order they
    are met reading the tree depth-first and left to right (an [IN]
    array contributes its elements, a null check nothing, any other
    condition its one value, be it an array or [undefined]), leaves
    the parameters collected before untouched, and advances
    [paramIndex] by the number of values appended. *)
Theorem compileWhereNode_binds_leaf_values (node : WhereNode) (st : CompilerState) :
  in_values_are_arrays node = true ->
  exists text,
    compileWhereNode node st
    = (Ok text,
       mkState (params st ++ bound_values node)
               (paramIndex st + length (bound_values node))).
Proof. intros Hwf. exact (compileWhereNode_pushes node Hwf st). Qed.

Lemma compileWhereNode_binds_leaf_values_witness :
  exists text,
    compileWhereNode
      (Conditions.and [Conditions.in_ "id" [VNum 7; VNum 8];
                       Conditions.isNull "deleted_at";
                       Conditions.not (Conditions.like "name" "a%")])
      (mkState [VStr "x"] 2)
    = (Ok text, mkState [VStr "x"; VNum 7; VNum 8; VStr "a%"] 5).
Proof.
  exact (compileWhereNode_binds_leaf_values
           (Conditions.and [Conditions.in_ "id" [VNum 7; VNum 8];
                            Conditions.isNull "deleted_at";
                            Conditions.not (Conditions.like "name" "a%")])
           (mkState [VStr "x"] 2) eq_refl).
Defined.

(* ====================================================================== *)
(** * Statements with sub-queries *)
(* ====================================================================== *)

Lemma headText_split {Q} (q : QueryNode Q) (acc : string) :
  stageJoins q (stageSelect q acc) = acc ++ headText q.
Proof.
  unfold headText. rewrite !stageJoins_in_order. unfold stageSelect.
  now rewrite !append_assoc.
Qed.

(** The clauses after WITH, from any compiler fields and any text so far. *)
Lemma compileBody_labelled (q : QueryNode QueryAST) (acc : string)
    (st : CompilerState) :
  compileBody q acc st
  = (let* trW := traceWhereNodes (default [] (where_ q)) in
     let* trH := traceWhereNodes (default [] (having q)) in
     fun s => (Ok (mkResult (acc ++ statementText q trW trH) (params s)), s)) st.
Proof.
  unfold compileBody, bind at 1.
  rewrite stageWhere_labelled. unfold bind at 1 3.
  destruct (traceWhereNodes (default [] (where_ q)) st) as [[trW|e] st1];
    [| reflexivity].
  cbn [ret]. unfold bind at 1. rewrite stageHaving_labelled. unfold bind.
  destruct (traceWhereNodes (default [] (having q)) st1) as [[trH|e] st2];
    [| reflexivity].
  cbn [ret]. unfold stageReturn, statementText, groupText, tailText.
  do 2 f_equal. f_equal.
  rewrite stageTail_split, stageGroupBy_split, headText_split.
  now rewrite !append_assoc.
Qed.

Lemma compileCTE_standalone (c : CTENode QueryAST) st text s1 :
  compileCTE c st = (Ok text, s1) ->
  text = cteText c /\ s1 = snd (standalone (query c))
  /\ exists r, standalone (query c) = (Ok r, s1).
Proof.
  unfold compileCTE, cteText, standalone_sql, standalone, bind.
  rewrite (compile_ignores_state (query c) st new_SQLCompiler).
  destruct (compile (query c) new_SQLCompiler) as [[[s ps]|e] s2]; [| discriminate].
  cbn. intros H. inversion H; subst. eauto.
Qed.

Lemma Array_map_compileCTE (cs : list (CTENode QueryAST)) st texts s1 :
  Array_map compileCTE cs st = (Ok texts, s1) ->
  texts = map cteText cs
  /\ s1 = match last cs with
          | Some c => snd (standalone (query c))
          | None => st
          end
  /\ Forall (fun c => exists r s, standalone (query c) = (Ok r, s)) cs.
Proof.
  revert st texts s1. induction cs as [|c cs IH]; intros st texts s1 H.
  - inversion H; subst. auto.
  - apply Array_map_cons_inv in H as (t & s2 & ts & Hc & Hcs & ->).
    apply compileCTE_standalone in Hc as (Ht & Hs2 & r & Hr).
    apply IH in Hcs as (Hts & Hs1 & Hall).
    split; [now rewrite Ht, Hts |]. split.
    + destruct cs as [|c' cs]; [cbn in *; congruence |].
      change (last (c :: c' :: cs)) with (last (c' :: cs)).
      destruct (last (c' :: cs)) eqn:E; [exact Hs1 |].
      apply last_None in E. discriminate.
    + constructor; eauto.
Qed.

Lemma counter_in_step_accounts st hs st' :
  counter_in_step st -> accounts st hs st' -> counter_in_step st'.
Proof.
  unfold counter_in_step. intros Hst (Hp & _ & Hi).
  rewrite Hi, Hp, length_app, length_map. lia.
Qed.

Lemma compileBody_inv (q : QueryNode QueryAST) (acc : string) st r st' :
  compileBody q acc st = (Ok r, st') ->
  exists trW trH stW,
    traceWhereNodes (default [] (where_ q)) st = (Ok trW, stW)
    /\ traceWhereNodes (default [] (having q)) stW = (Ok trH, st')
    /\ r = mkResult (acc ++ statementText q trW trH) (params st').
Proof.
  rewrite compileBody_labelled. intros H.
  apply bind_inv_ok in H as (trW & stW & HW & H).
  apply bind_inv_ok in H as (trH & stH & HH & H).
  inversion H; subst. eauto 7.
Qed.

Lemma stageWith_inv (q : QueryNode QueryAST) st pre s1 :
  stageWith q "" st = (Ok pre, s1) ->
  pre = withClause (map cteText (default [] (with_ q)))
  /\ s1 = match last (default [] (with_ q)) with
          | Some c => snd (standalone (query c))
          | None => st
          end
  /\ Forall (fun c => exists r s, standalone (query c) = (Ok r, s))
            (default [] (with_ q)).
Proof.
  unfold stageWith. destruct (with_ q) as [[|c cs]|]; intros H.
  - inversion H; subst. cbn. auto.
  - apply bind_inv_ok in H as (texts & s2 & Hmap & H). inversion H; subst.
    apply Array_map_compileCTE in Hmap as (-> & -> & Hall).
    cbn [default]. unfold id. auto.
  - inversion H; subst. cbn. auto.
Qed.

Lemma compile_inv (q : QueryNode QueryAST) st r st' :
  compile (Query q) st = (Ok r, st') ->
  exists s1 trW trH stW,
    s1 = match last (default [] (with_ q)) with
         | Some c => snd (standalone (query c))
         | None => new_SQLCompiler
         end
    /\ Forall (fun c => exists r s, standalone (query c) = (Ok r, s))
              (default [] (with_ q))
    /\ traceWhereNodes (default [] (where_ q)) s1 = (Ok trW, stW)
    /\ traceWhereNodes (default [] (having q)) stW = (Ok trH, st')
    /\ r = mkResult (withClause (map cteText (default [] (with_ q)))
                     ++ statementText q trW trH) (params st').
Proof.
  rewrite compile_stages. intros H.
  apply bind_inv_ok in H as ([] & s0 & Hreset & H).
  inversion Hreset; subst s0; clear Hreset.
  apply bind_inv_ok in H as (pre & s1 & Hpre & H).
  apply stageWith_inv in Hpre as (-> & Hs1 & Hall).
  apply compileBody_inv in H as (trW & trH & stW & HW & HH & ->).
  exists s1, trW, trH, stW. auto.
Qed.

Lemma compile_result_in_step (ast : QueryAST) (st : CompilerState)
    (r : CompileResult) (st' : CompilerState) :
  compile ast st = (Ok r, st') ->
  result_params r = params st' /\ paramIndex st' = S (length (result_params r)).
Proof.
  revert st r st'. induction ast as [q IH] using QueryAST_tree_ind.
  intros st r st' H.
  apply compile_inv in H as (s1 & trW & trH & stW & Hs1 & Hall & HW & HH & ->).
  cbn [result_params]. split; [reflexivity |].
  assert (Hstep1 : counter_in_step s1).
  { destruct (last (default [] (with_ q))) as [c|] eqn:E; [| now subst s1].
    apply last_Some_elem_of in E.
    rewrite Forall_forall in IH, Hall.
    destruct (Hall c E) as (rc & sc & Hc).
    subst s1. rewrite Hc. cbn [snd]. unfold standalone in Hc.
    destruct (IH c E _ _ _ Hc) as [Hp Hi].
    unfold counter_in_step. now rewrite Hi, Hp. }
  apply traceWhereNodes_accounts in HW, HH.
  apply (counter_in_step_accounts _ _ _ (counter_in_step_accounts _ _ _ Hstep1 HW) HH).
Qed.

(** X5: whatever the statement, sub-queries included, when [compile]
    returns, the parameter list it returns is the compiler's [params]
    field as it stands, and [paramIndex] is one more than its length:
    the next placeholder number and the values collected never get out
    of step. *)
Theorem compile_keeps_counter_in_step (ast : QueryAST) (st : CompilerState)
    (r : CompileResult) (st' : CompilerState) :
  compile ast st = (Ok r, st') ->
  result_params r = params st' /\ paramIndex st' = S (length (result_params r)).
Proof. apply compile_result_in_step. Qed.

Lemma compile_keeps_counter_in_step_witness :
  exists r st',
    compile two_ctes_example (mkState [VNull] 9) = (Ok r, st')
    /\ result_params r = params st'
    /\ paramIndex st' = S (length (result_params r)).
Proof.
  destruct (compile_returns two_ctes_example eq_refl (mkState [VNull] 9))
    as (r & st' & Hrun).
  exists r, st'. split; [exact Hrun |].
  exact (compile_keeps_counter_in_step two_ctes_example _ r st' Hrun).
Defined.

Lemma pushes_compileWhereNodes (nodes : list WhereNode) :
  forallb in_values_are_arrays nodes = true ->
  pushes (compileWhereNodes nodes) (flat_map bound_values nodes).
Proof.
  intros Hwf. destruct nodes as [|n ns]; [apply pushes_ret |].
  unfold compileWhereNodes.
  eapply pushes_eq;
    [apply pushes_bind; [apply pushes_Array_map | intros; apply pushes_ret] |];
    [| apply app_nil_r].
  apply Forall_forall. intros c Hc. apply compileWhereNode_pushes.
  rewrite forallb_forall in Hwf. apply Hwf. now apply list_elem_of_In.
Qed.

Lemma pushes_stageWhere {Q} (q : QueryNode Q) (acc : string) :
  forallb in_values_are_arrays (default [] (where_ q)) = true ->
  pushes (stageWhere q acc) (flat_map bound_values (default [] (where_ q))).
Proof.
  intros Hwf. unfold stageWhere. destruct (nonEmpty (where_ q)) as [nodes|] eqn:E.
  - rewrite (nonEmpty_default _ _ E) in *.
    eapply pushes_eq;
      [apply pushes_bind;
         [now apply pushes_compileWhereNodes | intros; apply pushes_ret] |].
    apply app_nil_r.
  - rewrite (nonEmpty_None_default _ E). apply pushes_ret.
Qed.

Lemma pushes_stageHaving {Q} (q : QueryNode Q) (acc : string) :
  forallb in_values_are_arrays (default [] (having q)) = true ->
  pushes (stageHaving q acc) (flat_map bound_values (default [] (having q))).
Proof.
  intros Hwf. unfold stageHaving. destruct (nonEmpty (having q)) as [nodes|] eqn:E.
  - rewrite (nonEmpty_default _ _ E) in *.
    eapply pushes_eq;
      [apply pushes_bind;
         [now apply pushes_compileWhereNodes | intros; apply pushes_ret] |].
    apply app_nil_r.
  - rewrite (nonEmpty_None_default _ E). apply pushes_ret.
Qed.

Lemma pushes_compileBody (q : QueryNode QueryAST) (acc : string) :
  forallb in_values_are_arrays (default [] (where_ q)) = true ->
  forallb in_values_are_arrays (default [] (having q)) = true ->
  pushes (compileBody q acc)
         (flat_map bound_values (default [] (where_ q))
          ++ flat_map bound_values (default [] (having q))).
Proof.
  intros Hw Hh. unfold compileBody.
  apply pushes_bind; [now apply pushes_stageWhere | intros s1].
  eapply pushes_eq;
    [apply pushes_bind; [now apply pushes_stageHaving | intros s2] |];
    [| apply app_nil_r].
  intros [ps i]. eexists. unfold stageReturn. cbn [params paramIndex length].
  now rewrite app_nil_r, Nat.add_0_r.
Qed.

Lemma standalone_params_state (ast : QueryAST) r s :
  standalone ast = (Ok r, s) -> standalone_params ast = params s.
Proof.
  intros H. unfold standalone_params. rewrite H. cbn.
  unfold standalone in H. now apply compile_result_in_step in H as [-> _].
Qed.

Lemma compile_params (q : QueryNode QueryAST) (st : CompilerState) :
  query_in_values_are_arrays (Query q) = true ->
  exists r st',
    compile (Query q) st = (Ok r, st')
    /\ result_params r
       = (match last (default [] (with_ q)) with
          | Some c => standalone_params (query c)
          | None => []
          end
          ++ flat_map bound_values (default [] (where_ q))
          ++ flat_map bound_values (default [] (having q)))%list.
Proof.
  intros Hwf. destruct (compile_returns _ Hwf st) as (r & st' & Hrun).
  exists r, st'. split; [exact Hrun |].
  destruct (compile_result_in_step _ _ _ _ Hrun) as [-> _].
  cbn [query_in_values_are_arrays] in Hwf.
  apply andb_true_iff in Hwf as [[Hw Hh]%andb_true_iff _].
  rewrite compile_stages in Hrun.
  apply bind_inv_ok in Hrun as ([] & s0 & Hreset & H).
  inversion Hreset; subst s0; clear Hreset.
  apply bind_inv_ok in H as (pre & s1 & Hpre & H).
  apply stageWith_inv in Hpre as (_ & Hs1 & Hall).
  destruct (pushes_compileBody q pre Hw Hh s1) as [r' Hr'].
  rewrite Hr' in H. inversion H; subst r' st'; clear H. cbn [params].
  f_equal. destruct (last (default [] (with_ q))) as [c|] eqn:E; [| now subst s1].
  apply last_Some_elem_of in E. rewrite Forall_forall in Hall.
  destruct (Hall c E) as (rc & sc & Hc).
  rewrite (standalone_params_state _ _ _ Hc). subst s1. now rewrite Hc.
Qed.

(** X6: the parameter list of any statement in closed form. When no
    [IN] condition lacks its array, [compile] returns, and the list it
    returns is: the list that the last sub-query of the WITH clause
    returns when compiled on its own (nothing if there is no
    sub-query), then the bound values of the WHERE list, then those of
    the HAVING list, each read depth-first and left to right.
    Parameters of sub-queries before the last one are not part of it. *)
Theorem compile_params_closed_form (q : QueryNode QueryAST) (st : CompilerState) :
  query_in_values_are_arrays (Query q) = true ->
  exists r st',
    compile (Query q) st = (Ok r, st')
    /\ result_params r
       = (match last (default [] (with_ q)) with
          | Some c => standalone_params (query c)
          | None => []
          end
          ++ flat_map bound_values (default [] (where_ q))
          ++ flat_map bound_values (default [] (having q)))%list.
Proof. apply compile_params. Qed.

Lemma compile_params_closed_form_witness :
  exists r st',
    compile two_ctes_example new_SQLCompiler = (Ok r, st')
    /\ result_params r = [VBool true; VNum 1; VNum 2].
Proof.
  exact (compile_params_closed_form (node_of two_ctes_example) new_SQLCompiler eq_refl).
Defined.

(** X7: the WITH clause. When [compile] returns, the statement starts
    with the sub-queries in declaration order, each as
    [<name> AS (<text>)] where the text is what that sub-query compiles
    to on its own on a new compiler (so each sub-query's placeholders
    are numbered from [$1]), separated by a comma and a blank, between
    [WITH ] and a blank; with no sub-query nothing precedes [SELECT].
    The projection, the table and the join clauses follow. *)
Theorem compile_with_clause (q : QueryNode QueryAST) (st : CompilerState) :
  query_in_values_are_arrays (Query q) = true ->
  exists r st' post,
    compile (Query q) st = (Ok r, st')
    /\ sql r
       = match default [] (with_ q) with
         | [] => ""
         | ctes => "WITH " ++ Array_join ", " (map cteText ctes) ++ " "
         end
         ++ "SELECT " ++ compileColumns (columns q) ++ " FROM " ++ table q
         ++ joinsText (default [] (joins q)) ++ post.
Proof.
  intros Hwf. destruct (compile_returns _ Hwf st) as (r & st' & Hrun).
  pose proof Hrun as H.
  apply compile_inv in H as (s1 & trW & trH & stW & _ & _ & _ & _ & ->).
  eexists _, st', _. split; [exact Hrun |]. cbn [sql].
  assert (Hw : withClause (map cteText (default [] (with_ q)))
               = match default [] (with_ q) with
                 | [] => ""
                 | ctes => "WITH " ++ Array_join ", " (map cteText ctes) ++ " "
                 end)
    by now destruct (default [] (with_ q)).
  rewrite <- Hw. f_equal.
  unfold statementText, headText. rewrite stageJoins_in_order. unfold stageSelect.
  rewrite !append_assoc. reflexivity.
Qed.

Lemma compile_with_clause_witness :
  exists r st' post,
    compile two_ctes_example new_SQLCompiler = (Ok r, st')
    /\ sql r
       = "WITH a AS (SELECT * FROM users WHERE status = $1), b AS (SELECT * FROM posts WHERE published = $1) SELECT * FROM comments"
         ++ post.
Proof.
  exact (compile_with_clause (node_of two_ctes_example) new_SQLCompiler eq_refl).
Defined.

Lemma statementText_placeholders_k {Q} (q : QueryNode Q) (trW trH : list Piece)
    (k : string) :
  names_dollar_free q = true ->
  scans trW -> scans trH ->
  (default [] (having q) = [] -> trH = []) ->
  starts_without_digit k = true ->
  placeholders (statementText q trW trH ++ k)
  = (map fst (holes trW) ++ map fst (holes trH) ++ placeholders k)%list.
Proof.
  intros Hnames HW HH Hempty Hk. unfold statementText. rewrite !append_assoc.
  assert (HkW : dollar_free (keyword (where_ q) " WHERE ") = true)
    by (destruct (keyword_cases (where_ q) " WHERE ") as [[-> _] | ->]; reflexivity).
  assert (HkH : dollar_free (keyword (having q) " HAVING ") = true)
    by (destruct (keyword_cases (having q) " HAVING ") as [[-> _] | ->]; reflexivity).
  assert (Htail : starts_without_digit (tailText q ++ k) = true)
    by (apply starts_without_digit_spaced; [apply spaced_tailText | exact Hk]).
  rewrite placeholders_free_app by now apply dollar_free_headText.
  rewrite placeholders_free_app by exact HkW.
  rewrite HW.
  - rewrite placeholders_free_app by now apply dollar_free_groupText.
    rewrite placeholders_free_app by exact HkH.
    rewrite HH by exact Htail.
    now rewrite placeholders_free_app by now apply dollar_free_tailText.
  - apply starts_without_digit_spaced; [apply spaced_groupText |].
    destruct (keyword_cases (having q) " HAVING ") as [[-> Hnil] | ->];
      [| reflexivity].
    rewrite (Hempty Hnil). exact Htail.
Qed.

(** X8: one sub-query gives one stream. For a statement whose WITH
    clause binds exactly one sub-query that has no sub-queries of its
    own, with arrays under every [IN] and no dollar sign in any name:
    [compile] returns; scanning the emitted text finds the
    placeholders [$1], [$2], ... up to the length of the returned
    parameter list, each once and in order, across the sub-query and
    the outer statement; and the returned list is the sub-query's own
    parameters followed by the bound values of the outer WHERE and
    HAVING lists. *)
Theorem single_sub_query_one_stream (q : QueryNode QueryAST) (c : CTENode QueryAST)
    (st : CompilerState) :
  with_ q = Some [c] ->
  nonEmpty (with_ (node_of (query c))) = None ->
  query_in_values_are_arrays (Query q) = true ->
  names_dollar_free q = true ->
  names_dollar_free (node_of (query c)) = true ->
  dollar_free (name c) = true ->
  exists r st',
    compile (Query q) st = (Ok r, st')
    /\ placeholders (sql r) = seq 1 (length (result_params r))
    /\ result_params r
       = (standalone_params (query c)
          ++ flat_map bound_values (default [] (where_ q))
          ++ flat_map bound_values (default [] (having q)))%list.
Proof.
  intros Hwith Hleaf Hwf Hnq Hnc Hname.
  destruct (compile_params q st Hwf) as (r & st' & Hrun & Hparams).
  exists r, st'. split; [exact Hrun |].
  rewrite Hwith in Hparams. cbn [default] in Hparams. unfold id in Hparams.
  change (last [c]) with (Some c) in Hparams. cbv iota in Hparams.
  split; [| exact Hparams].
  pose proof Hrun as H.
  apply compile_inv in H as (s1 & trW & trH & stW & Hs1 & Hall & HW & HH & ->).
  rewrite Hwith in Hs1, Hall. cbn [default last] in Hs1, Hall. unfold id in Hs1, Hall.
  apply Forall_cons in Hall as [(rc & sc & Hc) _].
  change (last [c]) with (Some c) in Hs1. cbv iota in Hs1.
  rewrite Hc in Hs1. cbn [snd] in Hs1. subst s1.
  destruct (query c) as [qc] eqn:Eq. cbn [node_of] in Hleaf, Hnc.
  pose proof Hc as Hc'. unfold standalone in Hc'.
  rewrite (compile_without_ctes qc _ Hleaf) in Hc'.
  apply bind_inv_ok in Hc' as (trWc & stWc & HWc & Hc').
  apply bind_inv_ok in Hc' as (trHc & stHc & HHc & Hc').
  inversion Hc'; subst rc stHc; clear Hc'.
  destruct (names_dollar_free_parts q Hnq) as (_ & _ & _ & _ & _ & HfW & HfH).
  destruct (names_dollar_free_parts qc Hnc) as (_ & _ & _ & _ & _ & HfWc & HfHc).
  pose proof (accounts_trans _ _ _ _ _
                (accounts_trans _ _ _ _ _ (traceWhereNodes_accounts _ _ _ _ HWc)
                   (traceWhereNodes_accounts _ _ _ _ HHc))
                (accounts_trans _ _ _ _ _ (traceWhereNodes_accounts _ _ _ _ HW)
                   (traceWhereNodes_accounts _ _ _ _ HH))) as (Hp & Hord & _).
  cbn [params new_SQLCompiler app paramIndex] in Hp, Hord.
  cbn [sql result_params]. rewrite Hp, length_map, <- Hord.
  rewrite Hwith. cbn [default map withClause Array_join String.concat]. unfold id.
  change (withClause (map cteText [c]))
    with ("WITH " ++ cteText c ++ " ").
  unfold cteText, standalone_sql. rewrite Eq, Hc. cbn [fst sql].
  rewrite !append_assoc.
  rewrite (placeholders_free_app "WITH ") by reflexivity.
  rewrite (placeholders_free_app (name c)) by exact Hname.
  rewrite (placeholders_free_app " AS (") by reflexivity.
  rewrite statementText_placeholders_k; try assumption.
  - rewrite (placeholders_free_app ")") by reflexivity.
    rewrite (placeholders_free_app " ") by reflexivity.
    rewrite statementText_placeholders; try assumption.
    + now rewrite !map_app, <- !app_assoc.
    + exact (traceWhereNodes_scans _ _ _ _ HfW HW).
    + exact (traceWhereNodes_scans _ _ _ _ HfH HH).
    + intros Hnil. exact (traceWhereNodes_empty _ _ _ _ Hnil HH).
  - exact (traceWhereNodes_scans _ _ _ _ HfWc HWc).
  - exact (traceWhereNodes_scans _ _ _ _ HfHc HHc).
  - intros Hnil. exact (traceWhereNodes_empty _ _ _ _ Hnil HHc).
  - reflexivity.
Qed.

Lemma single_sub_query_one_stream_witness :
  exists r st',
    compile single_cte_example new_SQLCompiler = (Ok r, st')
    /\ placeholders (sql r) = seq 1 (length (result_params r))
    /\ result_params r = [VStr "active"; VNum 1; VNum 2; VNum 3].
Proof.
  exact (single_sub_query_one_stream
           (node_of single_cte_example)
           (mkCTENode "active_users"
              (Query (set_where (Some [Conditions.eq "status" (VStr "active")])
                        (set_columns (Some ["id"; "name"]) (emptyQuery "users")))))
           new_SQLCompiler eq_refl eq_refl eq_refl eq_refl eq_refl eq_refl).
Defined.

(* ====================================================================== *)
(** * More on the builder *)
(* ====================================================================== *)

Lemma update_update (f g : QueryNode nat -> QueryNode nat) (this : QueryBuilder.t)
    (h : Store) :
  snd (QueryBuilder.update g this (snd (QueryBuilder.update f this h)))
  = snd (QueryBuilder.update (fun o => g (f o)) this h).
Proof.
  cbn. apply alter_alter_eq.
Qed.

(** X9: [where] is additive and keeps order: calling it with [c1] and
    then with [c2] leaves the store exactly as one call with [c1]
    followed by [c2] does; in particular a call without conditions
    changes nothing where the list is already there. *)
Theorem where_calls_accumulate (this : QueryBuilder.t) (h : Store)
    (c1 c2 : list WhereNode) :
  snd (QueryBuilder.where_ c2 this (snd (QueryBuilder.where_ c1 this h)))
  = snd (QueryBuilder.where_ (c1 ++ c2) this h).
Proof.
  unfold QueryBuilder.where_. rewrite update_update. cbn.
  apply alter_ext. intros o _. unfold set_where. cbn.
  now rewrite app_assoc.
Qed.

(** X10: [select], [groupBy], [limit] and [offset] replace: of two
    calls of the same method on a builder only the second one counts. *)
Theorem setters_replace (this : QueryBuilder.t) (h : Store) :
  (forall c1 c2,
     snd (QueryBuilder.select c2 this (snd (QueryBuilder.select c1 this h)))
     = snd (QueryBuilder.select c2 this h))
  /\ (forall c1 c2,
        snd (QueryBuilder.groupBy c2 this (snd (QueryBuilder.groupBy c1 this h)))
        = snd (QueryBuilder.groupBy c2 this h))
  /\ (forall n1 n2,
        snd (QueryBuilder.limit n2 this (snd (QueryBuilder.limit n1 this h)))
        = snd (QueryBuilder.limit n2 this h))
  /\ (forall n1 n2,
        snd (QueryBuilder.offset n2 this (snd (QueryBuilder.offset n1 this h)))
        = snd (QueryBuilder.offset n2 this h)).
Proof.
  repeat split; intros;
    unfold QueryBuilder.select, QueryBuilder.groupBy, QueryBuilder.limit,
      QueryBuilder.offset;
    rewrite update_update; reflexivity.
Qed.

(** X11: calls that write different clauses commute: for two builder
    calls on the same builder, neither of them [join], that set
    different clauses of the model, the store after both is the same
    in either order. *)
Theorem calls_on_different_clauses_commute (c1 c2 : BuilderCall)
    (this : QueryBuilder.t) (h : Store) :
  clause_of c1 <> clause_of c2 ->
  clause_of c1 <> ClJoins ->
  clause_of c2 <> ClJoins ->
  snd (perform c2 this (snd (perform c1 this h)))
  = snd (perform c1 this (snd (perform c2 this h))).
Proof.
  intros Hne H1 H2.
  destruct c1, c2; cbn [clause_of] in *; try congruence;
    cbn [perform];
    unfold QueryBuilder.select, QueryBuilder.where_, QueryBuilder.orderBy,
      QueryBuilder.groupBy, QueryBuilder.limit, QueryBuilder.offset,
      QueryBuilder.with_;
    rewrite !update_update; cbn; apply alter_ext; intros [] _; reflexivity.
Qed.

Lemma calls_on_different_clauses_commute_witness :
  snd (QueryBuilder.limit (Int 10) (QueryBuilder.mk 0 test_relations)
         (snd (QueryBuilder.offset (Int 5) (QueryBuilder.mk 0 test_relations)
                 two_builders_store)))
  = snd (QueryBuilder.offset (Int 5) (QueryBuilder.mk 0 test_relations)
           (snd (QueryBuilder.limit (Int 10) (QueryBuilder.mk 0 test_relations)
                   two_builders_store))).
Proof.
  apply (calls_on_different_clauses_commute (DoOffset (Int 5)) (DoLimit (Int 10))
           (QueryBuilder.mk 0 test_relations) two_builders_store);
    discriminate.
Defined.

Lemma perform_lookup_ne (c : BuilderCall) (this : QueryBuilder.t) (h : Store) (a : nat) :
  a <> QueryBuilder.ast this -> snd (perform c this h) !! a = h !! a.
Proof.
  intros Ha.
  destruct c; cbn [perform]; try (cbn; now rewrite lookup_alter_ne by congruence).
  unfold QueryBuilder.join.
  destruct (h !! QueryBuilder.ast this) as [o|]; [| reflexivity].
  destruct (List.find _ _); [| reflexivity].
  cbn. now rewrite lookup_insert_ne by congruence.
Qed.

Lemma perform_lookup_eq (c : BuilderCall) (this : QueryBuilder.t) (h : Store)
    (o : QueryNode nat) :
  h !! QueryBuilder.ast this = Some o ->
  exists o',
    snd (perform c this h) !! QueryBuilder.ast this = Some o'
    /\ table o' = table o /\ type o' = type o.
Proof.
  intros Ho.
  destruct c; cbn [perform];
    try (cbn; rewrite lookup_alter_eq, Ho; cbn; eauto).
  unfold QueryBuilder.join. rewrite Ho.
  destruct (List.find _ _); [| eauto].
  cbn. rewrite lookup_insert_eq. eauto.
Qed.

Lemma perform_lookup_None (c : BuilderCall) (this : QueryBuilder.t) (h : Store) :
  h !! QueryBuilder.ast this = None ->
  snd (perform c this h) !! QueryBuilder.ast this = None.
Proof.
  intros E.
  destruct c; cbn [perform];
    try (cbn; now rewrite lookup_alter_eq, E).
  unfold QueryBuilder.join. now rewrite E.
Qed.

(** X12: a builder call touches no model but the builder's own: every
    other address of the store reads as before, and no address is
    added or removed. *)
Theorem builder_call_frame (c : BuilderCall) (this : QueryBuilder.t) (h : Store)
    (a : nat) :
  a <> QueryBuilder.ast this ->
  snd (perform c this h) !! a = h !! a
  /\ dom (snd (perform c this h)) = dom h.
Proof.
  intros Ha. split; [now apply perform_lookup_ne |].
  apply set_eq. intros x. rewrite !elem_of_dom.
  destruct (decide (x = QueryBuilder.ast this)) as [-> | Hx];
    [| now rewrite perform_lookup_ne].
  split; intros [o Ho].
  - destruct (h !! QueryBuilder.ast this) as [o0|] eqn:E; [eauto |].
    rewrite (perform_lookup_None c this h E) in Ho. discriminate.
  - destruct (perform_lookup_eq c this h o Ho) as (o' & Ho' & _). eauto.
Qed.

Lemma builder_call_frame_witness :
  snd (QueryBuilder.where_ [Conditions.eq "status" (VStr "active")]
         (QueryBuilder.mk 0 test_relations) two_builders_store) !! 1
  = Some (emptyQuery "posts").
Proof.
  destruct (builder_call_frame
              (DoWhere [Conditions.eq "status" (VStr "active")])
              (QueryBuilder.mk 0 test_relations) two_builders_store 1)
    as [H _]; [cbn; lia |].
  exact H.
Defined.

(** X13: the table name and the statement type of a model never change:
    after any builder call on any builder, every model that was in the
    store is still there, with the table and the type it had. *)
Theorem table_name_is_fixed (c : BuilderCall) (this : QueryBuilder.t) (h : Store)
    (a : nat) (o : QueryNode nat) :
  h !! a = Some o ->
  exists o',
    snd (perform c this h) !! a = Some o'
    /\ table o' = table o /\ type o' = type o.
Proof.
  intros Ho. destruct (decide (a = QueryBuilder.ast this)) as [-> | Hne].
  - now apply perform_lookup_eq.
  - exists o. now rewrite perform_lookup_ne.
Qed.

Lemma table_name_is_fixed_witness :
  exists o',
    snd (QueryBuilder.join "users" INNER (QueryBuilder.mk 1 test_relations)
           two_builders_store) !! 1 = Some o'
    /\ table o' = "posts" /\ type o' = SELECT.
Proof.
  exact (table_name_is_fixed (DoJoin "users" INNER)
           (QueryBuilder.mk 1 test_relations) two_builders_store 1
           (emptyQuery "posts") eq_refl).
Defined.

Lemma orderByAll_store (calls : list (string * Direction)) (this : QueryBuilder.t)
    (h : Store) (o : QueryNode nat) (os : list OrderByNode) :
  h !! QueryBuilder.ast this = Some o ->
  orderBy o = Some os ->
  orderByAll calls this h
  = (Ok this,
     <[QueryBuilder.ast this :=
         set_orderBy
           (Some (os ++ map (fun cd => mkOrderByNode (fst cd) (snd cd)) calls)%list) o]> h).
Proof.
  revert h o os. induction calls as [|[col dir] calls IH]; intros h o os Ho Hos.
  - cbn. rewrite app_nil_r. f_equal. symmetry. apply insert_id.
    rewrite Ho. f_equal. destruct o; cbn in *. now subst.
  - cbn [orderByAll]. unfold bind, QueryBuilder.orderBy at 1, QueryBuilder.update.
    rewrite (IH _ (set_orderBy (Some (os ++ [mkOrderByNode col dir])%list) o)
               (os ++ [mkOrderByNode col dir])%list).
    + f_equal. apply map_eq. intros a.
      destruct (decide (a = QueryBuilder.ast this)) as [-> | Hne].
      * rewrite !lookup_insert_eq. f_equal. cbn [map fst snd].
        rewrite <- app_assoc. reflexivity.
      * rewrite !lookup_insert_ne, lookup_alter_ne by congruence. reflexivity.
    + rewrite lookup_alter_eq, Ho. cbn. now rewrite Hos.
    + reflexivity.
Qed.

Lemma reify_leaf (fuel : nat) (h : Store) (a : nat) (o : QueryNode nat) :
  h !! a = Some o -> with_ o = None ->
  reify (S fuel) h a = Some (Query (as_leaf o)).
Proof. intros Ho Hw. cbn [reify]. rewrite Ho. cbn. now rewrite Hw. Qed.

(** X14: [orderBy] accumulates, and the statement lists the keys in
    call order. On a newly constructed builder, after any sequence of
    [orderBy] calls (and nothing else), [toSQL] returns no parameters
    and the text [SELECT * FROM <table>], followed, if there was at
    least one call, by [ ORDER BY ] and the [<column> <direction>]
    pairs of all the calls in the order they were made, separated by a
    comma and a blank; no key is dropped, merged or reordered. *)
Theorem orderBy_calls_in_order (rels : list Relation) (tbl : string)
    (calls : list (string * Direction)) (h : Store) :
  (let* b := QueryBuilder.new rels tbl in
   let* b := orderByAll calls b in
   fun h' => (Ok (QueryBuilder.toSQL 1 b h'), h')) h
  = (Ok (Some (Ok (mkResult
       ("SELECT * FROM " ++ tbl
        ++ match calls with
           | [] => ""
           | _ => " ORDER BY "
                  ++ Array_join ", "
                       (map (fun cd => fst cd ++ " " ++ Direction_text (snd cd)) calls)
           end)
       []))),
     <[fresh (dom h) :=
         set_orderBy (Some (map (fun cd => mkOrderByNode (fst cd) (snd cd)) calls))
                     (emptyQuery tbl)]> h).
Proof.
  unfold bind at 1, QueryBuilder.new. unfold bind.
  erewrite orderByAll_store;
    [| cbn [QueryBuilder.ast]; apply lookup_insert_eq | reflexivity].
  cbn [QueryBuilder.ast app]. rewrite insert_insert_eq.
  f_equal. unfold QueryBuilder.toSQL. cbn [QueryBuilder.ast].
  erewrite reify_leaf; [| apply lookup_insert_eq | reflexivity].
  cbn [mbind option_bind]. do 2 f_equal.
  rewrite compile_without_ctes by reflexivity. cbn [fst].
  unfold statementText, headText, groupText, tailText, stageJoins, stageSelect,
    stageGroupBy, stageOffset, stageLimit, stageOrderBy, keyword.
  destruct calls as [|cd calls]; [reflexivity |].
  cbn -[Array_join]. rewrite map_map, !append_assoc. reflexivity.
Qed.

Lemma relates_sym (a b : string) (r : Relation) : relates a b r = relates b a r.
Proof.
  unfold relates. rewrite orb_comm.
  now rewrite (andb_comm (String.eqb (to r) a)), (andb_comm (String.eqb (from r) a)).
Qed.

Lemma find_relates_sym (a b : string) (rels : list Relation) :
  List.find (relates a b) rels = List.find (relates b a) rels.
Proof.
  induction rels as [|r rels IH]; [reflexivity |].
  cbn. now rewrite relates_sym, IH.
Qed.

(** X15: [join] looks the relation up without regard to direction. For
    two builders over the same relation list, joining the second one's
    table from the first and the first one's table from the second
    either both throw (no relation between the two tables) or both
    succeed using the same relation, the first declared one that links
    the two tables; and whichever builder joins, the relation's
    [foreignKey] is written under the joining builder's own table and
    its [references] under the joined table. *)
Theorem join_lookup_is_symmetric (this1 this2 : QueryBuilder.t) (h : Store)
    (o1 o2 : QueryNode nat) (kind : JoinType) :
  h !! QueryBuilder.ast this1 = Some o1 ->
  h !! QueryBuilder.ast this2 = Some o2 ->
  QueryBuilder.relations this1 = QueryBuilder.relations this2 ->
  match List.find (relates (table o1) (table o2)) (QueryBuilder.relations this1) with
  | None =>
      QueryBuilder.join (table o2) kind this1 h
      = (Throw (Error ("No relation defined between " ++ table o1 ++ " and " ++ table o2)), h)
      /\ QueryBuilder.join (table o1) kind this2 h
         = (Throw (Error ("No relation defined between " ++ table o2 ++ " and " ++ table o1)), h)
  | Some r =>
      QueryBuilder.join (table o2) kind this1 h
      = (Ok this1,
         <[QueryBuilder.ast this1 :=
             set_joins
               ((fun js => js ++ [mkJoinNode kind (table o2)
                                    (mkJoinOn (table o1 ++ "." ++ foreignKey r)
                                              (table o2 ++ "." ++ references r)) None])%list
                  <$> joins o1) o1]> h)
      /\ QueryBuilder.join (table o1) kind this2 h
         = (Ok this2,
            <[QueryBuilder.ast this2 :=
                set_joins
                  ((fun js => js ++ [mkJoinNode kind (table o1)
                                       (mkJoinOn (table o2 ++ "." ++ foreignKey r)
                                                 (table o1 ++ "." ++ references r)) None])%list
                     <$> joins o2) o2]> h)
  end.
Proof.
  intros H1 H2 Hrel. unfold QueryBuilder.join. rewrite H1, H2, <- Hrel.
  rewrite (find_relates_sym (table o2) (table o1)).
  destruct (List.find _ _); split; reflexivity.
Qed.

Lemma join_lookup_is_symmetric_witness :
  QueryBuilder.join "posts" INNER (QueryBuilder.mk 0 test_relations) two_builders_store
  = (Ok (QueryBuilder.mk 0 test_relations),
     <[0 := set_joins
              (Some [mkJoinNode INNER "posts"
                       (mkJoinOn "users.author_id" "posts.id") None])
              (emptyQuery "users")]> two_builders_store)
  /\ QueryBuilder.join "users" INNER (QueryBuilder.mk 1 test_relations) two_builders_store
     = (Ok (QueryBuilder.mk 1 test_relations),
        <[1 := set_joins
                 (Some [mkJoinNode INNER "users"
                          (mkJoinOn "posts.author_id" "users.id") None])
                 (emptyQuery "posts")]> two_builders_store).
Proof.
  exact (join_lookup_is_symmetric
           (QueryBuilder.mk 0 test_relations) (QueryBuilder.mk 1 test_relations)
           two_builders_store (emptyQuery "users") (emptyQuery "posts") INNER
           eq_refl eq_refl eq_refl).
Defined.

(** X16: a builder obtained from the facade owns a new model. After
    [db.table(name).query()] the builder's address was unused before,
    the store without that address is the store as it was (no existing
    model is touched), the new model is the empty SELECT on [name], the
    builder carries the facade's relations, and compiling it right
    away gives [SELECT * FROM <name>] with no parameters. *)
Theorem facade_query_is_fresh (db : Database.t) (tbl : string) (h : Store) :
  exists b h',
    Database.query db tbl h = (Ok b, h')
    /\ h !! QueryBuilder.ast b = None
    /\ delete (QueryBuilder.ast b) h' = h
    /\ h' !! QueryBuilder.ast b = Some (emptyQuery tbl)
    /\ QueryBuilder.relations b = Database.relations db
    /\ QueryBuilder.toSQL 1 b h'
       = Some (Ok (mkResult ("SELECT * FROM " ++ tbl) [])).
Proof.
  eexists _, _. split; [reflexivity |]. cbn [QueryBuilder.ast QueryBuilder.relations].
  assert (Hfresh : h !! fresh (dom h) = None)
    by (apply not_elem_of_dom, is_fresh).
  split; [exact Hfresh |].
  split; [rewrite delete_insert_eq; now apply delete_id |].
  split; [apply lookup_insert_eq |].
  split; [reflexivity |].
  unfold QueryBuilder.toSQL. cbn [QueryBuilder.ast].
  erewrite reify_leaf; [| apply lookup_insert_eq | reflexivity].
  reflexivity.
Qed.

Lemma reify_self_bound (b : QueryBuilder.t) (h : Store) (o : QueryNode nat)
    (nm : string) (fuel : nat) :
  h !! QueryBuilder.ast b = Some o ->
  reify fuel (snd (QueryBuilder.with_ nm b b h)) (QueryBuilder.ast b) = None.
Proof.
  intros Ho. induction fuel as [|fuel IH]; [reflexivity |].
  cbn [reify]. cbn [QueryBuilder.with_ QueryBuilder.update snd] in *.
  rewrite lookup_alter_eq, Ho. cbn.
  destruct (mapM _ _) as [ctes|] eqn:Hctes; [| reflexivity].
  exfalso. apply mapM_Some in Hctes.
  apply Forall2_app_inv_l in Hctes as (k1 & k2 & _ & Hlast & _).
  apply Forall2_cons_inv_l in Hlast as (y & k3 & Hy & _ & _).
  cbn in Hy. unfold QueryBuilder.with_, QueryBuilder.update in IH. cbn in IH.
  rewrite IH in Hy. discriminate.
Qed.

(** X17: a builder can be bound into itself, and then its model cannot
    be compiled. After [b.with(name, b)] the model of [b] lists itself
    among its sub-queries, and [toSQL] has no result at any recursion
    depth: the nested [compile] calls never bottom out. *)
Theorem self_binding_never_compiles (b : QueryBuilder.t) (h : Store)
    (o : QueryNode nat) (nm : string) :
  h !! QueryBuilder.ast b = Some o ->
  (exists o',
     snd (QueryBuilder.with_ nm b b h) !! QueryBuilder.ast b = Some o'
     /\ last (default [] (with_ o')) = Some (mkCTENode nm (QueryBuilder.ast b)))
  /\ forall fuel, QueryBuilder.toSQL fuel b (snd (QueryBuilder.with_ nm b b h)) = None.
Proof.
  intros Ho. split.
  - eexists. split; [cbn; rewrite lookup_alter_eq, Ho; reflexivity |].
    cbn. apply last_snoc.
  - intros fuel. unfold QueryBuilder.toSQL.
    now rewrite (reify_self_bound b h o nm fuel Ho).
Qed.

Lemma self_binding_never_compiles_witness :
  QueryBuilder.toSQL 5 (QueryBuilder.mk 0 test_relations)
    (snd (QueryBuilder.with_ "me" (QueryBuilder.mk 0 test_relations)
            (QueryBuilder.mk 0 test_relations) two_builders_store))
  = None.
Proof.
  exact (proj2 (self_binding_never_compiles (QueryBuilder.mk 0 test_relations)
                  two_builders_store (emptyQuery "users") "me" eq_refl) 5).
Defined.

(* ====================================================================== *)
(** * Projection and paging *)
(* ====================================================================== *)

Lemma length_append (a b : string) :
  String.length (a ++ b) = String.length a + String.length b.
Proof.
  induction a as [|c a IH]; [reflexivity |].
  rewrite append_cons. cbn. now rewrite IH.
Qed.

Lemma Array_join_long (x y : string) (l : list string) :
  2 <= String.length (Array_join ", " (x :: y :: l)).
Proof.
  change (Array_join ", " (x :: y :: l))
    with (x ++ ", " ++ Array_join ", " (y :: l)).
  rewrite !length_append. cbn. lia.
Qed.

(** X18: when the projection turns into a star. [compile] prints [*]
    for the projection exactly when the column list is absent, is
    empty, holds the empty string alone (the joined text is then empty,
    which [||] treats like an absent one), or holds [*] alone; in every
    other case it prints the columns joined by a comma and a blank. *)
Theorem projection_is_star_iff (cols : option (list string)) :
  (compileColumns cols = "*"
   <-> cols = None \/ cols = Some [] \/ cols = Some [""] \/ cols = Some ["*"])
  /\ (compileColumns cols = "*"
      \/ exists cs, cols = Some cs /\ compileColumns cols = Array_join ", " cs).
Proof.
  split.
  - split.
    + destruct cols as [cs|]; [| auto]. unfold compileColumns. cbn zeta.
      destruct cs as [|x [|y l]]; [auto | |].
      * cbn [Array_join String.concat].
        destruct (String.eqb_spec x "") as [-> | Hx]; [auto |].
        intros ->. auto.
      * pose proof (Array_join_long x y l) as Hlen.
        destruct (String.eqb_spec (Array_join ", " (x :: y :: l)) "") as [E | _].
        -- rewrite E in Hlen. cbn in Hlen. lia.
        -- intros E. rewrite E in Hlen. cbn in Hlen. lia.
    + intros [-> | [-> | [-> | ->]]]; reflexivity.
  - destruct cols as [cs|]; [| now left]. unfold compileColumns. cbn zeta.
    destruct (String.eqb _ ""); [now left | right]. eauto.
Qed.

(** X19: paging is appended as literal text. For a model whose limit
    and offset, where set, are safe integers (integers of magnitude at
    most 2^53 - 1, the only numbers the model holds), the statement
    [compile] emits is the statement it emits for the same model
    without limit and offset, followed by [ LIMIT <n>] if a limit is
    set and then by [ OFFSET <m>] if an offset is set, each number
    printed as its plain decimal digits, after a minus sign if it is
    negative; the returned parameters and the compiler fields are the
    same, and so is the error if one is thrown. Numbers with a
    fraction, [NaN], the infinities and magnitudes beyond the safe
    range are not covered. *)
Theorem paging_is_appended_literally (q : QueryNode QueryAST) (st : CompilerState) :
  compile (Query q) st
  = match compile (Query (set_offset None (set_limit None q))) st with
    | (Ok r, st') =>
        (Ok (mkResult
               (sql r
                ++ match limit q with
                   | Some n => " LIMIT " ++ Number_toString n
                   | None => ""
                   end
                ++ match offset q with
                   | Some m => " OFFSET " ++ Number_toString m
                   | None => ""
                   end)
               (result_params r)),
         st')
    | (Throw e, st') => (Throw e, st')
    end.
Proof.
  rewrite !compile_stages. unfold bind, reset.
  change (stageWith (set_offset None (set_limit None q)) "") with (stageWith q "").
  destruct (stageWith q "" (mkState [] 1)) as [[pre|e] s1]; [| reflexivity].
  unfold compileBody, bind.
  change (stageJoins (set_offset None (set_limit None q))
            (stageSelect (set_offset None (set_limit None q)) pre))
    with (stageJoins q (stageSelect q pre)).
  set (s0 := stageJoins q (stageSelect q pre)).
  change (stageWhere (set_offset None (set_limit None q)) s0) with (stageWhere q s0).
  destruct (stageWhere q s0 s1) as [[w|e] s2]; [| reflexivity].
  change (stageGroupBy (set_offset None (set_limit None q)) w)
    with (stageGroupBy q w).
  set (g := stageGroupBy q w).
  change (stageHaving (set_offset None (set_limit None q)) g) with (stageHaving q g).
  destruct (stageHaving q g s2) as [[hv|e] s3]; [| reflexivity].
  unfold stageReturn. cbn [sql result_params]. do 2 f_equal. f_equal.
  change (stageOrderBy (set_offset None (set_limit None q)) hv)
    with (stageOrderBy q hv).
  unfold stageOffset, stageLimit. cbn [offset limit set_offset set_limit].
  destruct (limit q), (offset q); rewrite ?append_assoc, ?append_empty_r; reflexivity.
Qed.

(** X20: the builder never writes a HAVING list. If no model of the
    store has one, then after constructing a builder, and after any
    builder call, still none has: the HAVING stage of the compiler is
    out of reach of the fluent API. *)
Theorem builder_never_sets_having (h : Store) :
  no_having h ->
  (forall rels tbl, no_having (snd (QueryBuilder.new rels tbl h)))
  /\ (forall c this, no_having (snd (perform c this h))).
Proof.
  intros Hh. split.
  - intros rels tbl a o. cbn. rewrite lookup_insert. case_decide.
    + now intros [= <-].
    + apply Hh.
  - intros c this a o Ho.
    destruct (decide (a = QueryBuilder.ast this)) as [-> | Hne].
    + destruct (h !! QueryBuilder.ast this) as [o0|] eqn:E.
      * specialize (Hh _ _ E). revert Ho.
        destruct c; cbn [perform];
          try (cbn; rewrite lookup_alter_eq, E; cbn; intros [= <-]; exact Hh).
        unfold QueryBuilder.join. rewrite E.
        destruct (List.find _ _); cbn.
        -- rewrite lookup_insert_eq. intros [= <-]. exact Hh.
        -- rewrite E. intros [= <-]. exact Hh.
      * rewrite (perform_lookup_None c this h E) in Ho. discriminate.
    + rewrite perform_lookup_ne in Ho by exact Hne. now apply (Hh a).
Qed.

Lemma builder_never_sets_having_witness :
  having (set_groupBy (Some ["author_id"]) (emptyQuery (Q := nat) "posts")) = None.
Proof.
  refine (proj2 (builder_never_sets_having two_builders_store _)
            (DoGroupBy ["author_id"]) (QueryBuilder.mk 1 test_relations) 1 _ eq_refl).
  intros a o. unfold two_builders_store.
  rewrite lookup_insert. case_decide; [now intros [= <-] |].
  rewrite lookup_singleton. case_decide; [now intros [= <-] | discriminate].
Defined.

(* ====================================================================== *)
(** * Joins, from the builder call to the emitted statement *)
(* ====================================================================== *)


(** ** C7 *)



(* ====================================================================== *)
(** * Placeholders and parameters with sibling sub-queries *)
(* ====================================================================== *)

(** ** C2 *)

(** C2: on the statement with two sibling sub-queries, one [compile]
    call returns a text whose placeholders do not match the returned
    parameters. The text holds four placeholders, numbered 1, 1, 2, 3,
    and the parameter list holds three values: the ordinal 1 is used
    twice, and the value ["active"], for which the first [$1] was
    written by the nested call on the first sub-query, is not in the
    returned list at all, whose first element is [true]. The nested
    call on that sub-query alone does bind ["active"] at its [$1]. *)
Theorem sibling_ctes_unmatched_placeholders :
  exists r : CompileResult,
    run_toSQL 2 two_ctes_program = Some (Ok r)
    /\ fst (compile two_ctes_example new_SQLCompiler) = Ok r
    /\ placeholders (sql r) = [1; 1; 2; 3]
    /\ result_params r = [VBool true; VNum 1; VNum 2]
    /\ length (placeholders (sql r)) = 4
    /\ length (result_params r) = 3
    /\ fst (compile (Query (set_where (Some [Conditions.eq "status" (VStr "active")])
                                      (emptyQuery "users")))
                    new_SQLCompiler)
       = Ok (mkResult "SELECT * FROM users WHERE status = $1" [VStr "active"])
    /\ result_params r !! 0 = Some (VBool true)
    /\ ~ In (VStr "active") (result_params r).
Proof.
  exists (mkResult
       "WITH a AS (SELECT * FROM users WHERE status = $1), b AS (SELECT * FROM posts WHERE published = $1) SELECT * FROM comments WHERE id IN ($2, $3)"
       [VBool true; VNum 1; VNum 2]).
  repeat split; try (vm_compute; reflexivity).
  cbn [result_params In]. intros [H | [H | [H | []]]]; discriminate H.
Qed.
